(** * The response formatter of the chat surface

    A shallow embedding of [parseMarkdown], [processBoldAndCitations] and
    [processCitations] from [src/components/ChatInterface.tsx], together with
    the fragment of JavaScript strings and regular expressions these three
    functions rely on.

    A JavaScript string is a sequence of UTF-16 code units; the bullet
    character U+2022 is one code unit, so the model works on lists of code
    units rather than on bytes. *)

From Stdlib Require Import String Ascii NArith Bool Arith Lia List.
Import ListNotations.

Local Open Scope N_scope.

(** ** Strings *)

Definition char := N.
Definition str := list char.

(** An ASCII literal as a JavaScript string. *)
Definition js (s : string) : str := map N_of_ascii (list_ascii_of_string s).

(** [text.slice(from, to)] and [text.slice(from)] for indices that are not
    negative. *)
Definition slice (from to : nat) (text : str) : str :=
  firstn (to - from) (skipn from text).

Definition slice_from (from : nat) (text : str) : str := skipn from text.

(** ** Character classes *)

Module Cls.

Definition lit (c : char) (x : char) : bool := x =? c.

Definition star : char := 42.
Definition colon : char := 58.
Definition plus : char := 43.
Definition period : char := 46.
Definition lbracket : char := 91.
Definition rbracket : char := 93.
Definition newline : char := 10.

(** [[\*\•\-]] *)
Definition bullet (x : char) : bool :=
  (x =? 42) || (x =? 8226) || (x =? 45).

(** LineTerminator of ECMAScript: LF, CR, LS, PS. *)
Definition lineTerminator (x : char) : bool :=
  (x =? 10) || (x =? 13) || (x =? 8232) || (x =? 8233).

(** WhiteSpace of ECMAScript: TAB, VT, FF, SP, NBSP, ZWNBSP and the
    space separators. *)
Definition whiteSpace (x : char) : bool :=
  (x =? 9) || (x =? 11) || (x =? 12) || (x =? 32) || (x =? 160)
  || (x =? 5760) || ((8192 <=? x) && (x <=? 8202))
  || (x =? 8239) || (x =? 8287) || (x =? 12288) || (x =? 65279).

(** [\s], which is also what [String.prototype.trim] strips. *)
Definition space (x : char) : bool := whiteSpace x || lineTerminator x.

(** [.] without the [s] flag. *)
Definition dot (x : char) : bool := negb (lineTerminator x).

(** [\d] *)
Definition digit (x : char) : bool := (48 <=? x) && (x <=? 57).

End Cls.

Local Close Scope N_scope.

(** ** [trim] and [split] *)

Fixpoint dropWhile (p : char -> bool) (s : str) : str :=
  match s with
  | c :: s' => if p c then dropWhile p s' else s
  | [] => []
  end.

Fixpoint takeWhile (p : char -> bool) (s : str) : str :=
  match s with
  | c :: s' => if p c then c :: takeWhile p s' else []
  | [] => []
  end.

(** [s.trim()] *)
Definition trim (s : str) : str :=
  rev (dropWhile Cls.space (rev (dropWhile Cls.space s))).

(** [s.split(sep)] for a separator of one code unit: one entry per
    separated segment, the empty ones included. *)
Fixpoint split (sep : char) (s : str) : list str :=
  match s with
  | [] => [[]]
  | c :: s' =>
      if N.eqb c sep then [] :: split sep s'
      else match split sep s' with
           | l :: ls => (c :: l) :: ls
           | [] => [[c]]
           end
  end.

(** ** Regular expressions

    Every pattern of the source is a sequence of atoms, each a single
    character class under at most one quantifier, optionally anchored at the
    start ([^]) and at the end ([$]).  Matching is the backtracking search of
    ECMAScript: a greedy quantifier tries the longest run first, a lazy one
    the shortest, and the first alternative that lets the rest of the pattern
    match wins. *)

Inductive atom :=
| One (p : char -> bool)      (* a literal or a class *)
| Star (p : char -> bool)     (* p*   *)
| LazyStar (p : char -> bool) (* p*?  *)
| Plus (p : char -> bool)     (* p+   *)
| Opt (p : char -> bool)      (* p?   *)
| Eos.                        (* $    *)

Record regex := {
  anchored : bool;      (* the pattern starts with ^ *)
  atoms : list atom;
  groups : list nat     (* positions, in [atoms], of the capture groups *)
}.

Section Quantifiers.
Context {A : Type} (p : char -> bool) (k : str -> option A).

(** The continuation [k] matches the rest of the pattern; the result
    pairs the run consumed by the quantifier with what [k] returned. *)
Definition skip (s : str) : option (str * A) :=
  option_map (pair []) (k s).

Fixpoint star_greedy (s : str) : option (str * A) :=
  match s with
  | c :: s' =>
      if p c then
        match star_greedy s' with
        | Some (w, r) => Some (c :: w, r)
        | None => skip s
        end
      else skip s
  | [] => skip s
  end.

Fixpoint star_lazy (s : str) : option (str * A) :=
  match skip s with
  | Some r => Some r
  | None =>
      match s with
      | c :: s' =>
          if p c then
            match star_lazy s' with
            | Some (w, r) => Some (c :: w, r)
            | None => None
            end
          else None
      | [] => None
      end
  end.

Definition plus_greedy (s : str) : option (str * A) :=
  match s with
  | c :: s' =>
      if p c then
        match star_greedy s' with
        | Some (w, r) => Some (c :: w, r)
        | None => None
        end
      else None
  | [] => None
  end.

Definition opt_greedy (s : str) : option (str * A) :=
  match s with
  | c :: s' =>
      if p c then
        match k s' with
        | Some r => Some ([c], r)
        | None => skip s
        end
      else skip s
  | [] => skip s
  end.

Definition one (s : str) : option (str * A) :=
  match s with
  | c :: s' => if p c then option_map (pair [c]) (k s') else None
  | [] => None
  end.

End Quantifiers.

Definition cons_piece (r : option (str * list str)) : option (list str) :=
  option_map (fun wr => fst wr :: snd wr) r.

(** [match_here re s]: the pattern matched at the start of [s]; the result
    lists the substring consumed by each atom. *)
Fixpoint match_here (re : list atom) (s : str) {struct re} : option (list str) :=
  match re with
  | [] => Some []
  | One p :: re' => cons_piece (one p (match_here re') s)
  | Star p :: re' => cons_piece (star_greedy p (match_here re') s)
  | LazyStar p :: re' => cons_piece (star_lazy p (match_here re') s)
  | Plus p :: re' => cons_piece (plus_greedy p (match_here re') s)
  | Opt p :: re' => cons_piece (opt_greedy p (match_here re') s)
  | Eos :: re' =>
      match s with
      | [] => cons_piece (skip (match_here re') s)
      | _ :: _ => None
      end
  end.

(** The array returned by [exec] and [match]: [get m 0] is the matched
    text, [get m k] the k-th capture group. *)
Record MatchResult := {
  index : nat;
  whole : str;
  captures : list str
}.

Definition get (m : MatchResult) (k : nat) : str :=
  match k with
  | O => whole m
  | S j => nth j (captures m) []
  end.

Definition mk_match (r : regex) (i : nat) (pieces : list str) : MatchResult :=
  {| index := i;
     whole := concat pieces;
     captures := map (fun g => nth g pieces []) (groups r) |}.

(** The first position at or after [i] (the offset of [s] in the whole
    text) where the pattern matches. *)
Fixpoint search (re : list atom) (s : str) (i : nat) : option (nat * list str) :=
  match match_here re s with
  | Some pieces => Some (i, pieces)
  | None =>
      match s with
      | [] => None
      | _ :: s' => search re s' (S i)
      end
  end.

(** [r.exec(text)] for a pattern with the [g] flag whose [lastIndex]
    property holds [lastIndex]; the caller stores the new [lastIndex],
    the end of the match. *)
Definition exec (r : regex) (text : str) (lastIndex : nat) : option MatchResult :=
  if Nat.leb lastIndex (length text) then
    match
      (if anchored r then
         match lastIndex with
         | O => option_map (pair O) (match_here (atoms r) text)
         | S _ => None
         end
       else search (atoms r) (skipn lastIndex text) lastIndex)
    with
    | Some (i, pieces) => Some (mk_match r i pieces)
    | None => None
    end
  else None.

(** [s.match(r)] for a pattern without the [g] flag. *)
Definition str_match (s : str) (r : regex) : option MatchResult := exec r s 0.

Definition matches (s : str) (r : regex) : bool :=
  match str_match s r with Some _ => true | None => false end.

(** [s.replace(r, '')] for a pattern without the [g] flag. *)
Definition replace_empty (s : str) (r : regex) : str :=
  match str_match s r with
  | Some m => firstn (index m) s ++ skipn (index m + length (whole m)) s
  | None => s
  end.

(** ** The patterns of the source *)

Definition lit_star := One (Cls.lit Cls.star).

(** [/^[\*\•\-]\s*\*\*.*\*\*:?/] *)
Definition bulletHeaderRegex : regex :=
  {| anchored := true;
     atoms := [One Cls.bullet; Star Cls.space; lit_star; lit_star;
               Star Cls.dot; lit_star; lit_star; Opt (Cls.lit Cls.colon)];
     groups := [] |}.

(** [/^[\*\•\-]\s*/] *)
Definition bulletPrefixRegex : regex :=
  {| anchored := true;
     atoms := [One Cls.bullet; Star Cls.space];
     groups := [] |}.

(** [/^[\*\•\-]\s+[\*\•\-]/] *)
Definition nestedRegex : regex :=
  {| anchored := true;
     atoms := [One Cls.bullet; Plus Cls.space; One Cls.bullet];
     groups := [] |}.

(** [/^[\*\•\-]\s+[\*\•\-]\s*/] *)
Definition nestedPrefixRegex : regex :=
  {| anchored := true;
     atoms := [One Cls.bullet; Plus Cls.space; One Cls.bullet; Star Cls.space];
     groups := [] |}.

(** [/^[\*\•\-]\s/] *)
Definition bulletRegex : regex :=
  {| anchored := true;
     atoms := [One Cls.bullet; One Cls.space];
     groups := [] |}.

(** [/^\+\s/] *)
Definition plusRegex : regex :=
  {| anchored := true;
     atoms := [One (Cls.lit Cls.plus); One Cls.space];
     groups := [] |}.

(** [/^\+\s*/] *)
Definition plusPrefixRegex : regex :=
  {| anchored := true;
     atoms := [One (Cls.lit Cls.plus); Star Cls.space];
     groups := [] |}.

(** [/^\d+\.\s/] *)
Definition numberedRegex : regex :=
  {| anchored := true;
     atoms := [Plus Cls.digit; One (Cls.lit Cls.period); One Cls.space];
     groups := [] |}.

(** [/^\d+\.\s*/] *)
Definition numberedPrefixRegex : regex :=
  {| anchored := true;
     atoms := [Plus Cls.digit; One (Cls.lit Cls.period); Star Cls.space];
     groups := [] |}.

(** [/^(\d+)\./] *)
Definition numberRegex : regex :=
  {| anchored := true;
     atoms := [Plus Cls.digit; One (Cls.lit Cls.period)];
     groups := [0] |}.

(** [/^\*\*.*\*\*:?\s*$/] *)
Definition headerRegex : regex :=
  {| anchored := true;
     atoms := [lit_star; lit_star; Star Cls.dot; lit_star; lit_star;
               Opt (Cls.lit Cls.colon); Star Cls.space; Eos];
     groups := [] |}.

(** [/\*\*(.*?)\*\*(:?)/g] *)
Definition boldRegex : regex :=
  {| anchored := false;
     atoms := [lit_star; lit_star; LazyStar Cls.dot; lit_star; lit_star;
               Opt (Cls.lit Cls.colon)];
     groups := [2; 5] |}.

(** [/\[(\d+)\]/g] *)
Definition citationRegex : regex :=
  {| anchored := false;
     atoms := [One (Cls.lit Cls.lbracket); Plus Cls.digit;
               One (Cls.lit Cls.rbracket)];
     groups := [1] |}.

(** ** What the functions build *)

(** An entry of a [parts] array: a string, the [<strong>] element of a
    bold span with its two children, or the [<span>] badge of a citation.
    The [key] props are kept as the numbers they are built from. *)
Inductive Part :=
| Str (s : str)
| Strong (key : nat) (boldText colon : str)
| Badge (keyOffset key : nat) (number : str).

(** Both inline functions return either the [parts] array or the text
    they were given. *)
Inductive Children :=
| Plain (text : str)
| Parts (parts : list Part).

(** The [<div>] pushed for a line, one constructor per branch of
    [parseMarkdown], in the order of the branches. *)
Inductive Block :=
| Spacer
| BulletHeader (children : Children)
| NestedNumberedItem (number : nat) (children : Children)
| BulletItem (children : Children)
| PlusBulletItem (children : Children)
| NumberedItem (number : str) (children : Children)
| Header (children : Children)
| Paragraph (children : Children).

(** An element with its [key], the index in [line-${index}]. *)
Record Element := { key : nat; block : Block }.

(** [parseMarkdown] returns its argument when it is falsy and the
    wrapping [<div>] of the elements otherwise. *)
Inductive Rendered :=
| Falsy (text : str)
| Div (elements : list Element).

(** ** The functions

    The two [while] loops run on fuel; [None] is the loop that has not
    finished.  [processCitations_total] and [processBoldAndCitations_total]
    below show that the fuel each function starts with is always enough. *)

Notation "x <- e ;; k" :=
  (match e with Some x => k | None => None end)
  (at level 61, e at next level, right associativity).

Notation "' p <- e ;; k" :=
  (match e with Some p => k | None => None end)
  (at level 61, p pattern, e at next level, right associativity).

Definition is_empty (s : str) : bool :=
  match s with [] => true | _ :: _ => false end.

Fixpoint citations_loop (fuel : nat) (text : str) (keyOffset : nat)
    (reLastIndex : nat) (parts : list Part) (lastIndex : nat)
  : option (list Part * nat) :=
  match fuel with
  | O => None
  | S fuel' =>
      match exec citationRegex text reLastIndex with
      | None => Some (parts, lastIndex)
      | Some m =>
          (* Add text before citation *)
          let parts :=
            if Nat.ltb lastIndex (index m)
            then parts ++ [Str (slice lastIndex (index m) text)]
            else parts in
          (* Add citation *)
          let parts := parts ++ [Badge keyOffset (length parts) (get m 1)] in
          let lastIndex := index m + length (get m 0) in
          citations_loop fuel' text keyOffset lastIndex parts lastIndex
      end
  end.

Definition processCitations (text : str) (keyOffset : nat) : option Children :=
  '(parts, lastIndex) <- citations_loop (S (length text)) text keyOffset 0 [] 0 ;;
  (* Add remaining text *)
  let parts :=
    if Nat.ltb lastIndex (length text)
    then parts ++ [Str (slice_from lastIndex text)]
    else parts in
  Some (if Nat.ltb 1 (length parts) then Parts parts else Plain text).

(** [if (Array.isArray(citationParts)) parts.push(...citationParts)
     else parts.push(citationParts)] *)
Definition push_children (parts : list Part) (citationParts : Children) : list Part :=
  match citationParts with
  | Parts ps => parts ++ ps
  | Plain t => parts ++ [Str t]
  end.

Fixpoint bold_loop (fuel : nat) (text : str) (reLastIndex : nat)
    (parts : list Part) (lastIndex : nat) : option (list Part * nat) :=
  match fuel with
  | O => None
  | S fuel' =>
      match exec boldRegex text reLastIndex with
      | None => Some (parts, lastIndex)
      | Some m =>
          (* Add text before the bold part *)
          parts <-
            (if Nat.ltb lastIndex (index m) then
               let beforeText := slice lastIndex (index m) text in
               citationParts <- processCitations beforeText (length parts) ;;
               Some (push_children parts citationParts)
             else Some parts) ;;
          (* Add bold text with colon if present *)
          let boldText := get m 1 in
          let colon := get m 2 in
          let parts := parts ++ [Strong (length parts) boldText colon] in
          let lastIndex := index m + length (get m 0) in
          bold_loop fuel' text lastIndex parts lastIndex
      end
  end.

Definition processBoldAndCitations (text : str) : option Children :=
  '(parts, lastIndex) <- bold_loop (S (length text)) text 0 [] 0 ;;
  (* Add remaining text *)
  parts <-
    (if Nat.ltb lastIndex (length text) then
       let remainingText := slice_from lastIndex text in
       citationParts <- processCitations remainingText (length parts) ;;
       Some (push_children parts citationParts)
     else Some parts) ;;
  Some (if Nat.ltb 0 (length parts) then Parts parts else Plain text).

(** The body of [lines.forEach((line, index) => ...)]: the state is the
    [elements] array and [nestedCounter]. *)
Definition parse_line (index : nat) (line : str) (st : list Element * nat)
  : option (list Element * nat) :=
  let '(elements, nestedCounter) := st in
  let push b := elements ++ [{| key := index; block := b |}] in
  let trimmedLine := trim line in
  if is_empty trimmedLine then
    Some (push Spacer, nestedCounter)
  else if matches trimmedLine bulletHeaderRegex then
    let content := replace_empty trimmedLine bulletPrefixRegex in
    let nestedCounter := 0 in
    children <- processBoldAndCitations content ;;
    Some (push (BulletHeader children), nestedCounter)
  else if matches trimmedLine nestedRegex then
    let content := replace_empty trimmedLine nestedPrefixRegex in
    let nestedCounter := S nestedCounter in
    children <- processBoldAndCitations content ;;
    Some (push (NestedNumberedItem nestedCounter children), nestedCounter)
  else if matches trimmedLine bulletRegex then
    let content := replace_empty trimmedLine bulletPrefixRegex in
    children <- processBoldAndCitations content ;;
    Some (push (BulletItem children), nestedCounter)
  else if matches trimmedLine plusRegex then
    let content := replace_empty trimmedLine plusPrefixRegex in
    children <- processBoldAndCitations content ;;
    Some (push (PlusBulletItem children), nestedCounter)
  else if matches trimmedLine numberedRegex then
    let content := replace_empty trimmedLine numberedPrefixRegex in
    let number :=
      match str_match trimmedLine numberRegex with
      | Some m => if is_empty (get m 1) then js "1" else get m 1
      | None => js "1"
      end in
    children <- processBoldAndCitations content ;;
    Some (push (NumberedItem number children), nestedCounter)
  else if matches trimmedLine headerRegex then
    children <- processBoldAndCitations trimmedLine ;;
    Some (push (Header children), nestedCounter)
  else
    children <- processBoldAndCitations trimmedLine ;;
    Some (push (Paragraph children), nestedCounter).

Fixpoint forEach (lines : list str) (index : nat) (st : list Element * nat)
  : option (list Element * nat) :=
  match lines with
  | [] => Some st
  | line :: rest =>
      st' <- parse_line index line st ;;
      forEach rest (S index) st'
  end.

Definition parseMarkdown (text : str) : option Rendered :=
  if is_empty text then Some (Falsy text)
  else
    let lines := split Cls.newline text in
    '(elements, _) <- forEach lines 0 ([], 0) ;;
    Some (Div elements).

(** ** The document of the specification, read off the elements *)

Inductive InlineSpan :=
| Text (s : str)
| Bold (s : str)
| Citation (index : N).

(** The number a run of decimal digits denotes. *)
Definition parseInt (digits : str) : N :=
  fold_left (fun acc c => (10 * acc + (c - 48))%N) digits 0%N.

(** A [<strong>] shows its two children one after the other; a badge
    shows and names the number it captured. *)
Definition span_of (p : Part) : InlineSpan :=
  match p with
  | Str s => Text s
  | Strong _ boldText colon => Bold (boldText ++ colon)
  | Badge _ _ number => Citation (parseInt number)
  end.

Definition spans (c : Children) : list InlineSpan :=
  match c with
  | Plain t => [Text t]
  | Parts ps => map span_of ps
  end.

(** The piece of the input a part was cut from. *)
Definition source_of (p : Part) : str :=
  match p with
  | Str s => s
  | Strong _ boldText colon =>
      Cls.star :: Cls.star :: boldText ++ Cls.star :: Cls.star :: colon
  | Badge _ _ number => Cls.lbracket :: number ++ [Cls.rbracket]
  end.

Definition children_source (c : Children) : str :=
  match c with
  | Plain t => t
  | Parts ps => concat (map source_of ps)
  end.

Definition parts_of (c : Children) : list Part :=
  match c with
  | Plain t => [Str t]
  | Parts ps => ps
  end.

(** The block sequence: nothing for the falsy text handed back, the
    blocks of the elements otherwise. *)
Definition document (r : Rendered) : list Block :=
  match r with
  | Falsy _ => []
  | Div elements => map block elements
  end.

(** ** Vocabulary of the statements *)

(** What an atom may consume: [w] is the run it took, [rest] what was
    left for the atoms after it. *)
Definition atom_run (a : atom) (w rest : str) : Prop :=
  match a with
  | One p => exists c, w = [c] /\ p c = true
  | Star p | LazyStar p => forallb p w = true
  | Plus p => w <> [] /\ forallb p w = true
  | Opt p => w = [] \/ exists c, w = [c] /\ p c = true
  | Eos => w = [] /\ rest = []
  end.

(** [s] does not begin with a character of the class [p]. *)
Definition stops (p : char -> bool) (s : str) : Prop :=
  match s with
  | c :: _ => p c = false
  | [] => True
  end.

(** A citation marker: an open bracket, one or more digits, a close
    bracket. *)
Definition marker (number : str) : str :=
  Cls.lbracket :: number ++ [Cls.rbracket].

Definition is_number (number : str) : Prop :=
  number <> [] /\ forallb Cls.digit number = true.

(** A part the citation extractor may emit for [text]: a string, or the
    badge of a marker that occurs in [text]. *)
Definition extracted_from (text : str) (p : Part) : Prop :=
  match p with
  | Str _ => True
  | Strong _ _ _ => False
  | Badge _ _ number =>
      is_number number /\
      exists pre post, text = pre ++ marker number ++ post
  end.

(** A bold span as written: the delimiters around the bold text, then
    the colon the pattern may capture. *)
Definition delimited (boldText colon : str) : str :=
  Cls.star :: Cls.star :: boldText ++ Cls.star :: Cls.star :: colon.

(** The rule of [nestedCounter]: what producing [b] with the counter at
    [c] leaves in the counter. *)
Definition register_rule (c : nat) (b : Block) (c' : nat) : Prop :=
  match b with
  | BulletHeader _ => c' = 0
  | NestedNumberedItem number _ => c' = S c /\ number = c'
  | _ => c' = c
  end.

(** [rendered i c lines es c']: the elements [es] are those of the lines
    [lines], one each and in their order, the first with key [i] and the
    counter at [c], the counter ending at [c']. *)
Inductive rendered : nat -> nat -> list str -> list Element -> nat -> Prop :=
| rendered_nil i c : rendered i c [] [] c
| rendered_cons i c line b c1 lines es c2 :
    (forall index elements,
        parse_line index line (elements, c)
        = Some (elements ++ [{| key := index; block := b |}], c1)) ->
    register_rule c b c1 ->
    (b = Spacer <-> trim line = []) ->
    rendered (S i) c1 lines es c2 ->
    rendered i c (line :: lines) ({| key := i; block := b |} :: es) c2.

(** Lines put back together, [sep] between them. *)
Fixpoint join (sep : char) (lines : list str) : str :=
  match lines with
  | [] => []
  | [l] => l
  | l :: ls => l ++ sep :: join sep ls
  end.

Definition count (c : char) (s : str) : nat :=
  length (filter (N.eqb c) s).

(** [text] holds no citation marker. *)
Definition no_marker (text : str) : Prop :=
  forall pre number post,
    is_number number -> text <> pre ++ marker number ++ post.

(** The same, decided: a marker begins at the head of [s] / somewhere
    in [s]. *)
Definition marker_here (s : str) : bool :=
  match s with
  | c :: s' =>
      Cls.lit Cls.lbracket c
      && negb (is_empty (takeWhile Cls.digit s'))
      && match dropWhile Cls.digit s' with
         | c' :: _ => Cls.lit Cls.rbracket c'
         | [] => false
         end
  | [] => false
  end.

Fixpoint has_marker (s : str) : bool :=
  marker_here s
  || match s with
     | _ :: s' => has_marker s'
     | [] => false
     end.

(** [s] holds a bold delimiter, two adjacent stars. *)
Fixpoint has_pair (s : str) : bool :=
  match s with
  | a :: t =>
      match t with
      | b :: _ => Cls.lit Cls.star a && Cls.lit Cls.star b
      | [] => false
      end
      || has_pair t
  | [] => false
  end.

(** [s] holds a bold delimiter and, after it, another one: an opening
    pair with a closing pair. *)
Fixpoint closed_pair (s : str) : bool :=
  match s with
  | a :: t =>
      match t with
      | b :: u => Cls.lit Cls.star a && Cls.lit Cls.star b && has_pair u
      | [] => false
      end
      || closed_pair t
  | [] => false
  end.

(** The numbers of the nested items as the kinds of the blocks alone
    fix them: with [c] nested items since the last BulletHeader, the
    next one is numbered [c + 1], a BulletHeader starts again from 0 and
    no other block counts. *)
Fixpoint numbered_from (c : nat) (blocks : list Block) : Prop :=
  match blocks with
  | [] => True
  | BulletHeader _ :: rest => numbered_from 0 rest
  | NestedNumberedItem number _ :: rest =>
      number = S c /\ numbered_from (S c) rest
  | _ :: rest => numbered_from c rest
  end.

(** The colon a bold span takes in when one follows it. *)
Definition leading_colon (s : str) : str :=
  match s with
  | c :: _ => if Cls.lit Cls.colon c then [Cls.colon] else []
  | [] => []
  end.

(** The [key] props of the parts of a line: [bold-${n}] and
    [citation-${offset}-${n}]; strings have none. *)
Inductive Key :=
| BoldKey (n : nat)
| CitationKey (offset n : nat).

Definition keys (parts : list Part) : list Key :=
  flat_map (fun p =>
              match p with
              | Str _ => []
              | Strong k _ _ => [BoldKey k]
              | Badge offset k _ => [CitationKey offset k]
              end) parts.

(** A keyed part at position [i] of the parts of a line: a [<strong>]
    has key [i], a badge an offset and a key that add up to [i]. *)
Definition key_at (i : nat) (p : Part) : Prop :=
  match p with
  | Str _ => True
  | Strong k _ _ => k = i
  | Badge offset k _ => offset + k = i
  end.

Fixpoint keyed (i : nat) (parts : list Part) : Prop :=
  match parts with
  | [] => True
  | p :: rest => key_at i p /\ keyed (S i) rest
  end.

(** Inside one call of the extractor: a badge at position [j] has the
    offset of the call and key [j]. *)
Definition badge_at (offset j : nat) (p : Part) : Prop :=
  match p with
  | Str _ => True
  | Strong _ _ _ => False
  | Badge o k _ => o = offset /\ k = j
  end.

Fixpoint badges_keyed (offset j : nat) (parts : list Part) : Prop :=
  match parts with
  | [] => True
  | p :: rest => badge_at offset j p /\ badges_keyed offset (S j) rest
  end.

Definition key_position (k : Key) : nat :=
  match k with
  | BoldKey n => n
  | CitationKey offset n => offset + n
  end.

(** ** The component around the formatter

    [handleSubmit] and [renderMessage] of [ChatInterface], from the same
    file.  The form state is the text [input]; [isLoading] is a prop. *)

(** [handleSubmit]: the argument [onSendMessage] is called with, when it
    is called, and the [input] the handler leaves. *)
Definition handleSubmit (input : str) (isLoading : bool) : option str * str :=
  if negb (is_empty (trim input)) && negb isLoading
  then (Some (trim input), [])
  else (None, input).

(** [a || b] for a string [a] that may be undefined: the empty string is
    falsy too. *)
Definition or_else (a : option str) (b : str) : str :=
  match a with
  | Some (c :: s) => c :: s
  | _ => b
  end.

(** [a || b] for a number that may be undefined: 0 is falsy too.  The
    numbers are the natural ones, chunk indices and pages. *)
Definition or_number {B : Type} (a : option N) (b : N + B) : N + B :=
  match a with
  | Some n => if N.eqb n 0 then b else inl n
  | None => b
  end.

(** A source as [renderMessage] reads it; [similarity_score], shown
    through [toFixed], is left out. *)
Record SourceMetadata := {
  md_filename : option str;
  md_chunk_index : option N
}.

Record Source := {
  src_metadata : option SourceMetadata;
  src_filename : option str;
  src_page : option N;
  src_text : option str
}.



(** The card of one source: the file name, the chunk label and the
    excerpt, which the markup ends with three periods. *)
Record Card := {
  card_filename : str;
  card_page : N + str;
  card_excerpt : str
}.

Definition source_card (source : Source) : Card :=
  {| card_filename :=
       or_else (match src_metadata source with
                | Some md => md_filename md
                | None => None
                end)
               (or_else (src_filename source) (js "Unknown"));
     card_page :=
       or_number (match src_metadata source with
                  | Some md => md_chunk_index md
                  | None => None
                  end)
                 (or_number (src_page source) (inr (js "N/A")));
     card_excerpt :=
       or_else (option_map (slice 0 200) (src_text source)) (js "No text") |}.




(** ** The page that sends the messages

    [generateTitleFromMessage] and [getUsernameFromEmail] of the chat
    page, which receives what [handleSubmit] sends. *)

Definition blank : char := 32%N.

(** The [for] loop over the words: [break] returns the title built so
    far. *)
Fixpoint title_loop (words : list str) (title : str) : str :=
  match words with
  | [] => title
  | word :: rest =>
      if Nat.ltb 40 (length (title ++ blank :: word)) then title
      else title_loop rest
             (title ++ (if is_empty title then [] else [blank]) ++ word)
  end.

Definition generateTitleFromMessage (message : str) : str :=
  let cleanMessage := trim message in
  if Nat.leb (length cleanMessage) 50 then cleanMessage
  else
    let words := split blank cleanMessage in
    let title := title_loop words [] in
    let title :=
      if Nat.ltb (length title) (length cleanMessage)
      then title ++ js "..."
      else title in
    or_else (Some title) (js "New Chat").

Section Username.
Variable toUpperCase : str -> str.

(** [word.charAt(0).toUpperCase() + word.slice(1)] *)
Definition capitalize (word : str) : str :=
  toUpperCase (firstn 1 word) ++ skipn 1 word.

Definition getUsernameFromEmail (email : str) : str :=
  let username := hd [] (split 64%N email) in
  let spaced :=
    map (fun c => if (N.eqb c 46 || N.eqb c 95)%bool then blank else c) username in
  join blank (map capitalize (split blank spaced)).

End Username.

(** The children of a block; a Spacer has none. *)
Definition children_of (b : Block) : option Children :=
  match b with
  | Spacer => None
  | BulletHeader ch | NestedNumberedItem _ ch | BulletItem ch
  | PlusBulletItem ch | NumberedItem _ ch | Header ch | Paragraph ch => Some ch
  end.

(** What the bold pattern lets a [<strong>] hold: text without a line
    terminator that ends before the first pair of stars, and the colon
    or nothing. *)
Definition shortest_span (p : Part) : Prop :=
  match p with
  | Strong _ boldText colon =>
      forallb Cls.dot boldText = true /\
      has_pair (boldText ++ [Cls.star]) = false /\
      (colon = [] \/ colon = [Cls.colon])
  | _ => True
  end.

(** Two stars stand in [s] with no line terminator before them. *)
Fixpoint closes (s : str) : bool :=
  match s with
  | a :: t =>
      match t with
      | b :: _ => Cls.lit Cls.star a && Cls.lit Cls.star b
      | [] => false
      end
      || Cls.dot a && closes t
  | [] => false
  end.

(** A bold span begins with the first character of [s]: two stars, and
    two more on the same line. *)
Definition opens (s : str) : bool :=
  match s with
  | a :: b :: u => Cls.lit Cls.star a && Cls.lit Cls.star b && closes u
  | _ => false
  end.

(** A bold span begins at a character of [plain] when [s] follows
    it. *)
Fixpoint span_within (plain s : str) : bool :=
  match plain with
  | c :: p => opens (c :: p ++ s) || span_within p s
  | [] => false
  end.

(** [spans_then tail text]: [text] is zero or more complete bold spans,
    each after the text that stands before it, and then [tail].  A
    complete span is two stars, bold text that holds no line terminator
    and no pair of stars and does not end in a star, two stars, and the
    colon when one follows; in the text before it no bold span
    begins. *)
Inductive spans_then (tail : str) : str -> Prop :=
| spans_done : spans_then tail tail
| spans_more plain boldText rest :
    span_within plain (delimited boldText rest) = false ->
    forallb Cls.dot boldText = true ->
    has_pair (boldText ++ [Cls.star]) = false ->
    spans_then tail (skipn (length (leading_colon rest)) rest) ->
    spans_then tail (plain ++ delimited boldText rest).

(** * Facts about the matcher *)

Section QuantifierFacts.
Context {A : Type} (p : char -> bool) (k : str -> option A).

Lemma skip_inv s w r :
  skip k s = Some (w, r) -> w = [] /\ k s = Some r.
Proof.
  unfold skip. destruct (k s); simpl; intros H; inversion H; auto.
Qed.

Lemma star_greedy_inv s : forall w r,
  star_greedy p k s = Some (w, r) ->
  exists s', s = w ++ s' /\ forallb p w = true /\ k s' = Some r.
Proof.
  induction s as [|c s IH]; intros w r; simpl.
  - intros H. apply skip_inv in H as [-> H]. exists []. auto.
  - destruct (p c) eqn:Pc.
    + destruct (star_greedy p k s) as [[w' r']|] eqn:E.
      * intros H; inversion H; subst.
        destruct (IH _ _ eq_refl) as (s' & -> & Hw & Hk).
        exists s'. simpl. rewrite Pc. auto.
      * intros H. apply skip_inv in H as [-> H]. exists (c :: s). auto.
    + intros H. apply skip_inv in H as [-> H]. exists (c :: s). auto.
Qed.

Lemma star_lazy_inv s : forall w r,
  star_lazy p k s = Some (w, r) ->
  exists s', s = w ++ s' /\ forallb p w = true /\ k s' = Some r.
Proof.
  induction s as [|c s IH]; intros w r; simpl.
  - destruct (skip k []) as [[w' r']|] eqn:E; [|discriminate].
    intros H; inversion H; subst.
    apply skip_inv in E as [-> E]. exists []. auto.
  - destruct (skip k (c :: s)) as [[w' r']|] eqn:E.
    + intros H; inversion H; subst.
      apply skip_inv in E as [-> E]. exists (c :: s). auto.
    + destruct (p c) eqn:Pc; [|discriminate].
      destruct (star_lazy p k s) as [[w' r']|] eqn:E'; [|discriminate].
      intros H; inversion H; subst.
      destruct (IH _ _ eq_refl) as (s' & -> & Hw & Hk).
      exists s'. simpl. rewrite Pc. auto.
Qed.

Lemma plus_greedy_inv s w r :
  plus_greedy p k s = Some (w, r) ->
  exists s', s = w ++ s' /\ w <> [] /\ forallb p w = true /\ k s' = Some r.
Proof.
  destruct s as [|c s]; simpl; [discriminate|].
  destruct (p c) eqn:Pc; [|discriminate].
  destruct (star_greedy p k s) as [[w' r']|] eqn:E; [|discriminate].
  intros H; inversion H; subst.
  apply star_greedy_inv in E as (s' & -> & Hw & Hk).
  exists s'. simpl. rewrite Pc. repeat split; auto. discriminate.
Qed.

Lemma opt_greedy_inv s w r :
  opt_greedy p k s = Some (w, r) ->
  exists s', s = w ++ s' /\ k s' = Some r /\
             (w = [] \/ exists c, w = [c] /\ p c = true).
Proof.
  destruct s as [|c s]; simpl.
  - intros H. apply skip_inv in H as [-> H]. exists []. auto.
  - destruct (p c) eqn:Pc.
    + destruct (k s) eqn:Ek.
      * intros H; inversion H; subst. exists s. repeat split; eauto.
      * intros H. apply skip_inv in H as [-> H]. exists (c :: s). auto.
    + intros H. apply skip_inv in H as [-> H]. exists (c :: s). auto.
Qed.

Lemma one_inv s w r :
  one p k s = Some (w, r) ->
  exists c s', s = c :: s' /\ w = [c] /\ p c = true /\ k s' = Some r.
Proof.
  destruct s as [|c s]; simpl; [discriminate|].
  destruct (p c) eqn:Pc; [|discriminate].
  destruct (k s) eqn:Ek; simpl; intros H; inversion H; subst.
  exists c, s. auto.
Qed.

End QuantifierFacts.

Lemma match_here_cons a re s ps :
  match_here (a :: re) s = Some ps ->
  exists w ps' s',
    ps = w :: ps' /\ s = w ++ s' /\ atom_run a w s' /\
    match_here re s' = Some ps'.
Proof.
  destruct a; simpl; unfold cons_piece.
  - destruct (one p (match_here re) s) as [[w r]|] eqn:E; simpl; [|discriminate].
    intros H; inversion H; subst.
    apply one_inv in E as (c & s' & -> & -> & Pc & Hk).
    exists [c], r, s'. repeat split; eauto.
  - destruct (star_greedy p (match_here re) s) as [[w r]|] eqn:E; simpl; [|discriminate].
    intros H; inversion H; subst.
    apply star_greedy_inv in E as (s' & -> & Hw & Hk).
    exists w, r, s'. auto.
  - destruct (star_lazy p (match_here re) s) as [[w r]|] eqn:E; simpl; [|discriminate].
    intros H; inversion H; subst.
    apply star_lazy_inv in E as (s' & -> & Hw & Hk).
    exists w, r, s'. auto.
  - destruct (plus_greedy p (match_here re) s) as [[w r]|] eqn:E; simpl; [|discriminate].
    intros H; inversion H; subst.
    apply plus_greedy_inv in E as (s' & -> & Hn & Hw & Hk).
    exists w, r, s'. repeat split; auto.
  - destruct (opt_greedy p (match_here re) s) as [[w r]|] eqn:E; simpl; [|discriminate].
    intros H; inversion H; subst.
    apply opt_greedy_inv in E as (s' & -> & Hk & Hw).
    exists w, r, s'. auto.
  - destruct s; [|discriminate].
    destruct (skip (match_here re) []) as [[w r]|] eqn:E; simpl; [|discriminate].
    intros H; inversion H; subst.
    apply skip_inv in E as [-> Hk].
    exists [], r, []. repeat split; auto.
Qed.

(** A match consumes a prefix of the text it was tried on. *)
Lemma match_here_prefix re : forall s ps,
  match_here re s = Some ps -> exists rest, s = concat ps ++ rest.
Proof.
  induction re as [|a re IH]; intros s ps H.
  - simpl in H. inversion H. exists s. reflexivity.
  - apply match_here_cons in H as (w & ps' & s' & -> & -> & _ & H).
    destruct (IH _ _ H) as (rest & ->).
    exists rest. simpl. now rewrite app_assoc.
Qed.

Lemma search_sound re : forall s i j ps,
  search re s i = Some (j, ps) ->
  exists pre rest,
    s = pre ++ rest /\ j = i + length pre /\ match_here re rest = Some ps.
Proof.
  induction s as [|c s IH]; intros i j ps; simpl.
  - destruct (match_here re []) eqn:E; [|discriminate].
    intros H; inversion H; subst. exists [], []. simpl. auto.
  - destruct (match_here re (c :: s)) eqn:E.
    + intros H; inversion H; subst. exists [], (c :: s). simpl. auto.
    + intros H. apply IH in H as (pre & rest & -> & -> & H).
      exists (c :: pre), rest. simpl. repeat split; auto; lia.
Qed.

Lemma search_none re : forall s i,
  (forall pre rest, s = pre ++ rest -> match_here re rest = None) ->
  search re s i = None.
Proof.
  induction s as [|c s IH]; intros i H; simpl.
  - now rewrite (H [] [] eq_refl).
  - rewrite (H [] (c :: s) eq_refl). apply IH.
    intros pre rest ->. apply (H (c :: pre) rest). reflexivity.
Qed.

(** What [exec] returns for a pattern that is not anchored. *)
Lemma exec_sound r text lastIndex m :
  anchored r = false ->
  exec r text lastIndex = Some m ->
  exists pre ps rest,
    lastIndex <= length text /\
    skipn lastIndex text = pre ++ concat ps ++ rest /\
    match_here (atoms r) (concat ps ++ rest) = Some ps /\
    m = mk_match r (lastIndex + length pre) ps.
Proof.
  intros Ha. unfold exec. rewrite Ha.
  destruct (Nat.leb lastIndex (length text)) eqn:Hle; [|discriminate].
  apply Nat.leb_le in Hle.
  destruct (search (atoms r) (skipn lastIndex text) lastIndex) as [[i ps]|] eqn:E;
    [|discriminate].
  intros H; inversion H; subst.
  apply search_sound in E as (pre & rest & E & -> & Hm).
  destruct (match_here_prefix _ _ _ Hm) as (rest' & ->).
  exists pre, ps, rest'. auto.
Qed.

Lemma exec_none r text lastIndex :
  anchored r = false ->
  (forall pre rest, text = pre ++ rest -> match_here (atoms r) rest = None) ->
  exec r text lastIndex = None.
Proof.
  intros Ha H. unfold exec. rewrite Ha.
  destruct (Nat.leb lastIndex (length text)); [|reflexivity].
  rewrite search_none; [reflexivity|].
  intros pre rest E. apply (H (firstn lastIndex text ++ pre) rest).
  rewrite <- app_assoc, <- E. symmetry. apply firstn_skipn.
Qed.

(** Anchored patterns, as [match] and [replace] use them. *)
Lemma matches_anchored s r :
  anchored r = true ->
  matches s r = match match_here (atoms r) s with Some _ => true | None => false end.
Proof.
  intros Ha. unfold matches, str_match, exec. rewrite Ha. simpl.
  destruct (match_here (atoms r) s); reflexivity.
Qed.

Lemma replace_anchored s r ps :
  anchored r = true ->
  match_here (atoms r) s = Some ps ->
  replace_empty s r = skipn (length (concat ps)) s.
Proof.
  intros Ha H. unfold replace_empty, str_match, exec. rewrite Ha. simpl.
  rewrite H. reflexivity.
Qed.

(** * The shape of a citation match and of a bold match *)

Lemma lit_true c x : Cls.lit c x = true -> x = c.
Proof. unfold Cls.lit. apply N.eqb_eq. Qed.

Lemma citation_match_inv s ps :
  match_here (atoms citationRegex) s = Some ps ->
  exists number rest,
    ps = [[Cls.lbracket]; number; [Cls.rbracket]] /\
    s = marker number ++ rest /\ is_number number.
Proof.
  intros H. unfold citationRegex in H. cbn [atoms] in H.
  apply match_here_cons in H as (w1 & ps1 & s1 & -> & -> & (c1 & -> & P1) & H).
  apply match_here_cons in H as (w2 & ps2 & s2 & -> & -> & (Hne & Hd) & H).
  apply match_here_cons in H as (w3 & ps3 & s3 & -> & -> & (c3 & -> & P3) & H).
  simpl in H. inversion H; subst.
  apply lit_true in P1, P3. subst.
  exists w2, s3. repeat split; auto.
  unfold marker. simpl. now rewrite <- app_assoc.
Qed.

Lemma bold_match_inv s ps :
  match_here (atoms boldRegex) s = Some ps ->
  exists boldText colon rest,
    ps = [[Cls.star]; [Cls.star]; boldText; [Cls.star]; [Cls.star]; colon] /\
    s = Cls.star :: Cls.star :: boldText ++ Cls.star :: Cls.star :: colon ++ rest /\
    forallb Cls.dot boldText = true /\
    (colon = [] \/ colon = [Cls.colon]).
Proof.
  intros H. unfold boldRegex, lit_star in H. cbn [atoms] in H.
  apply match_here_cons in H as (w1 & ps1 & s1 & -> & -> & (c1 & -> & P1) & H).
  apply match_here_cons in H as (w2 & ps2 & s2 & -> & -> & (c2 & -> & P2) & H).
  apply match_here_cons in H as (w3 & ps3 & s3 & -> & -> & Hd & H).
  apply match_here_cons in H as (w4 & ps4 & s4 & -> & -> & (c4 & -> & P4) & H).
  apply match_here_cons in H as (w5 & ps5 & s5 & -> & -> & (c5 & -> & P5) & H).
  apply match_here_cons in H as (w6 & ps6 & s6 & -> & -> & Hc & H).
  simpl in H. inversion H; subst.
  apply lit_true in P1, P2, P4, P5. subst.
  exists w3, w6, s6. repeat split; auto.
  destruct Hc as [->|(c & -> & Pc)]; [now left|right].
  apply lit_true in Pc. now subst.
Qed.

(** * List bookkeeping for the two loops *)

Lemma firstn_prefix {A : Type} (a b : list A) : firstn (length a) (a ++ b) = a.
Proof. induction a; simpl; congruence. Qed.

Lemma skipn_prefix {A : Type} (a b : list A) : skipn (length a) (a ++ b) = b.
Proof. induction a; simpl; congruence. Qed.

(** The step both loops take: from [lastIndex], over the text [pre] before
    a match and the match [mid] itself. *)
Lemma advance (text pre mid rest : str) (lastIndex : nat) :
  lastIndex <= length text ->
  skipn lastIndex text = pre ++ mid ++ rest ->
  lastIndex + length pre + length mid <= length text /\
  slice lastIndex (lastIndex + length pre) text = pre /\
  firstn (lastIndex + length pre + length mid) text
    = firstn lastIndex text ++ pre ++ mid /\
  skipn (lastIndex + length pre + length mid) text = rest.
Proof.
  intros Hle E.
  assert (Ht : text = (firstn lastIndex text ++ pre ++ mid) ++ rest).
  { rewrite <- !app_assoc, <- E. symmetry. apply firstn_skipn. }
  assert (Hl : length (firstn lastIndex text ++ pre ++ mid)
               = lastIndex + length pre + length mid).
  { rewrite !length_app, firstn_length_le by exact Hle. lia. }
  repeat split.
  - rewrite Ht at 1. rewrite length_app. lia.
  - unfold slice. rewrite E.
    replace (lastIndex + length pre - lastIndex) with (length pre) by lia.
    apply firstn_prefix.
  - rewrite <- Hl. rewrite Ht at 2. apply firstn_prefix.
  - rewrite <- Hl. rewrite Ht at 2. apply skipn_prefix.
Qed.

(** * The citation extractor *)

Lemma citations_loop_S fuel text keyOffset reLastIndex parts lastIndex :
  citations_loop (S fuel) text keyOffset reLastIndex parts lastIndex =
  match exec citationRegex text reLastIndex with
  | None => Some (parts, lastIndex)
  | Some m =>
      let parts :=
        if Nat.ltb lastIndex (index m)
        then parts ++ [Str (slice lastIndex (index m) text)]
        else parts in
      let parts := parts ++ [Badge keyOffset (length parts) (get m 1)] in
      let lastIndex := index m + length (get m 0) in
      citations_loop fuel text keyOffset lastIndex parts lastIndex
  end.
Proof. reflexivity. Qed.

Lemma citations_step text lastIndex m :
  exec citationRegex text lastIndex = Some m ->
  exists pre number rest,
    lastIndex <= length text /\
    skipn lastIndex text = pre ++ marker number ++ rest /\
    is_number number /\
    index m = lastIndex + length pre /\
    get m 0 = marker number /\ get m 1 = number.
Proof.
  intros H. apply exec_sound in H as (pre & ps & rest & Hle & E & Hm & ->);
    [|reflexivity].
  apply citation_match_inv in Hm as (number & rest' & -> & Hs & Hn).
  exists pre, number, rest. destruct Hn. repeat split; auto.
Qed.

(** The parts pushed before a match: the text before it, when there is
    some. *)
Lemma before_text_source (parts : list Part) (lastIndex : nat) (pre text : str) :
  slice lastIndex (lastIndex + length pre) text = pre ->
  concat (map source_of
            (if Nat.ltb lastIndex (lastIndex + length pre)
             then parts ++ [Str (slice lastIndex (lastIndex + length pre) text)]
             else parts))
  = concat (map source_of parts) ++ pre.
Proof.
  intros Hs. destruct (Nat.ltb_spec lastIndex (lastIndex + length pre)) as [Hlt|Hge].
  - rewrite Hs, map_app, concat_app. simpl. now rewrite app_nil_r.
  - destruct pre; simpl in *; [now rewrite app_nil_r | lia].
Qed.

Lemma citations_loop_total : forall fuel text keyOffset lastIndex parts,
  length text - lastIndex < fuel ->
  exists r, citations_loop fuel text keyOffset lastIndex parts lastIndex = Some r.
Proof.
  induction fuel as [|fuel IH]; intros text keyOffset lastIndex parts Hf; [lia|].
  rewrite citations_loop_S.
  destruct (exec citationRegex text lastIndex) as [m|] eqn:E; [|eauto].
  apply citations_step in E as (pre & number & rest & Hle & E & Hn & Hi & H0 & H1).
  destruct (advance text pre (marker number) rest lastIndex Hle E) as (Hb & _).
  cbv zeta. rewrite Hi, H0. apply IH.
  unfold marker in *. simpl in *. lia.
Qed.

Lemma citations_loop_spec : forall fuel text keyOffset lastIndex parts r,
  citations_loop fuel text keyOffset lastIndex parts lastIndex = Some r ->
  lastIndex <= length text ->
  concat (map source_of parts) = firstn lastIndex text ->
  Forall (extracted_from text) parts ->
  snd r <= length text /\
  concat (map source_of (fst r)) = firstn (snd r) text /\
  Forall (extracted_from text) (fst r).
Proof.
  induction fuel as [|fuel IH]; intros text keyOffset lastIndex parts r H Hle Hsrc Hex;
    [discriminate|].
  rewrite citations_loop_S in H.
  destruct (exec citationRegex text lastIndex) as [m|] eqn:E.
  - apply citations_step in E as (pre & number & rest & _ & E & Hn & Hi & H0 & H1).
    destruct (advance text pre (marker number) rest lastIndex Hle E)
      as (Hb & Hs & Hf & _).
    cbv zeta in H. rewrite Hi, H0, H1 in H.
    apply IH in H; auto.
    + rewrite map_app, concat_app, before_text_source, Hsrc, Hf by exact Hs.
      simpl. unfold marker. now rewrite app_nil_r, <- !app_assoc.
    + apply Forall_app. split.
      * destruct (Nat.ltb lastIndex (lastIndex + length pre)); auto.
        apply Forall_app. split; auto. constructor; simpl; auto.
      * constructor; [|constructor]. split; [exact Hn|].
        exists (firstn lastIndex text ++ pre), rest.
        rewrite <- app_assoc, <- E. symmetry. apply firstn_skipn.
  - inversion H; subst. simpl. auto.
Qed.

Lemma processCitations_total text keyOffset :
  exists c, processCitations text keyOffset = Some c.
Proof.
  unfold processCitations.
  destruct (citations_loop_total (S (length text)) text keyOffset 0 [])
    as ([parts lastIndex] & ->); [lia|].
  eauto.
Qed.

(** The extractor cuts its text into parts without losing a character,
    and every badge stands for a marker of the text. *)
Lemma processCitations_spec text keyOffset c :
  processCitations text keyOffset = Some c ->
  children_source c = text /\ Forall (extracted_from text) (parts_of c).
Proof.
  unfold processCitations.
  destruct (citations_loop (S (length text)) text keyOffset 0 [] 0)
    as [[parts lastIndex]|] eqn:E; [|discriminate].
  apply citations_loop_spec in E as (Hle & Hsrc & Hex);
    [|lia|reflexivity|constructor].
  simpl in Hle, Hsrc, Hex.
  intros H; inversion H; subst; clear H.
  match goal with |- context [Nat.ltb 1 (length ?ps)] => set (parts' := ps) end.
  assert (Hsrc' : concat (map source_of parts') = text).
  { subst parts'. destruct (Nat.ltb_spec lastIndex (length text)).
    - rewrite map_app, concat_app, Hsrc. simpl. rewrite app_nil_r.
      apply firstn_skipn.
    - rewrite Hsrc. apply firstn_all2. lia. }
  assert (Hex' : Forall (extracted_from text) parts').
  { subst parts'. destruct (Nat.ltb lastIndex (length text)); auto.
    apply Forall_app. split; auto. constructor; simpl; auto. }
  destruct (Nat.ltb 1 (length parts')); simpl; auto.
  split; auto. constructor; simpl; auto.
Qed.

(** * The tokenizer of bold spans *)

Lemma bold_loop_S fuel text reLastIndex parts lastIndex :
  bold_loop (S fuel) text reLastIndex parts lastIndex =
  match exec boldRegex text reLastIndex with
  | None => Some (parts, lastIndex)
  | Some m =>
      parts <-
        (if Nat.ltb lastIndex (index m) then
           let beforeText := slice lastIndex (index m) text in
           citationParts <- processCitations beforeText (length parts) ;;
           Some (push_children parts citationParts)
         else Some parts) ;;
      let boldText := get m 1 in
      let colon := get m 2 in
      let parts := parts ++ [Strong (length parts) boldText colon] in
      let lastIndex := index m + length (get m 0) in
      bold_loop fuel text lastIndex parts lastIndex
  end.
Proof. reflexivity. Qed.

Lemma bold_step text lastIndex m :
  exec boldRegex text lastIndex = Some m ->
  exists pre boldText colon rest,
    lastIndex <= length text /\
    skipn lastIndex text = pre ++ delimited boldText colon ++ rest /\
    index m = lastIndex + length pre /\
    get m 0 = delimited boldText colon /\
    get m 1 = boldText /\ get m 2 = colon.
Proof.
  intros H. apply exec_sound in H as (pre & ps & rest & Hle & E & Hm & ->);
    [|reflexivity].
  apply bold_match_inv in Hm as (boldText & colon & rest' & -> & Hs & _ & _).
  assert (Hw : concat [[Cls.star]; [Cls.star]; boldText; [Cls.star]; [Cls.star]; colon]
               = delimited boldText colon).
  { unfold delimited. simpl. now rewrite app_nil_r. }
  exists pre, boldText, colon, rest. rewrite <- Hw. repeat split; auto.
Qed.

Lemma push_children_source parts c :
  concat (map source_of (push_children parts c))
  = concat (map source_of parts) ++ children_source c.
Proof.
  destruct c; simpl; rewrite map_app, concat_app; simpl;
    [now rewrite app_nil_r | reflexivity].
Qed.

(** The parts pushed for the text before a bold span. *)
Lemma before_bold_total (parts : list Part) (lastIndex i : nat) (text : str) :
  exists parts',
    (if Nat.ltb lastIndex i then
       let beforeText := slice lastIndex i text in
       citationParts <- processCitations beforeText (length parts) ;;
       Some (push_children parts citationParts)
     else Some parts) = Some parts'.
Proof.
  destruct (Nat.ltb lastIndex i); [|eauto]. cbv zeta.
  destruct (processCitations_total (slice lastIndex i text) (length parts))
    as (c & ->). eauto.
Qed.

Lemma before_bold_source (parts parts' : list Part) (lastIndex : nat) (pre text : str) :
  slice lastIndex (lastIndex + length pre) text = pre ->
  (if Nat.ltb lastIndex (lastIndex + length pre) then
     let beforeText := slice lastIndex (lastIndex + length pre) text in
     citationParts <- processCitations beforeText (length parts) ;;
     Some (push_children parts citationParts)
   else Some parts) = Some parts' ->
  concat (map source_of parts') = concat (map source_of parts) ++ pre.
Proof.
  intros Hs. destruct (Nat.ltb_spec lastIndex (lastIndex + length pre)) as [Hlt|Hge].
  - cbv zeta. rewrite Hs.
    destruct (processCitations pre (length parts)) as [c|] eqn:E; [|discriminate].
    intros H; inversion H; subst.
    apply processCitations_spec in E as (E & _).
    now rewrite push_children_source, E.
  - intros H; inversion H; subst.
    destruct pre; simpl in *; [now rewrite app_nil_r | lia].
Qed.

Lemma bold_loop_total : forall fuel text lastIndex parts,
  length text - lastIndex < fuel ->
  exists r, bold_loop fuel text lastIndex parts lastIndex = Some r.
Proof.
  induction fuel as [|fuel IH]; intros text lastIndex parts Hf; [lia|].
  rewrite bold_loop_S.
  destruct (exec boldRegex text lastIndex) as [m|] eqn:E; [|eauto].
  apply bold_step in E as (pre & boldText & colon & rest & Hle & E & Hi & H0 & _).
  destruct (advance text pre (delimited boldText colon) rest lastIndex Hle E)
    as (Hb & _).
  destruct (before_bold_total parts lastIndex (index m) text) as (parts' & ->).
  cbv zeta. rewrite Hi, H0. apply IH.
  unfold delimited in *. simpl in *. lia.
Qed.

Lemma bold_loop_spec : forall fuel text lastIndex parts r,
  bold_loop fuel text lastIndex parts lastIndex = Some r ->
  lastIndex <= length text ->
  concat (map source_of parts) = firstn lastIndex text ->
  snd r <= length text /\
  concat (map source_of (fst r)) = firstn (snd r) text.
Proof.
  induction fuel as [|fuel IH]; intros text lastIndex parts r H Hle Hsrc;
    [discriminate|].
  rewrite bold_loop_S in H.
  destruct (exec boldRegex text lastIndex) as [m|] eqn:E.
  - apply bold_step in E as (pre & boldText & colon & rest & _ & E & Hi & H0 & H1 & H2).
    destruct (advance text pre (delimited boldText colon) rest lastIndex Hle E)
      as (Hb & Hs & Hf & _).
    rewrite Hi in H.
    match type of H with
    | (match ?e with Some _ => _ | None => _ end) = _ =>
        destruct e as [parts'|] eqn:Eb; [|discriminate]
    end.
    apply before_bold_source in Eb; [|exact Hs].
    cbv zeta in H. rewrite H0, H1, H2 in H.
    apply IH in H; auto.
    rewrite map_app, concat_app, Eb, Hsrc, Hf.
    simpl. unfold delimited. now rewrite app_nil_r, <- !app_assoc.
  - inversion H; subst. simpl. auto.
Qed.

Lemma processBoldAndCitations_total text :
  exists c, processBoldAndCitations text = Some c.
Proof.
  unfold processBoldAndCitations.
  destruct (bold_loop_total (S (length text)) text 0 [])
    as ([parts lastIndex] & ->); [lia|].
  destruct (Nat.ltb lastIndex (length text)); [|eauto]. cbv zeta.
  destruct (processCitations_total (slice_from lastIndex text) (length parts))
    as (c & ->). eauto.
Qed.

(** The tokenizer cuts its text into parts without losing a character:
    a delimiter that is not written back by a [<strong>] is inside a
    string part or a badge, and a badge holds digits only. *)
Lemma processBoldAndCitations_source text c :
  processBoldAndCitations text = Some c -> children_source c = text.
Proof.
  unfold processBoldAndCitations.
  destruct (bold_loop (S (length text)) text 0 [] 0)
    as [[parts lastIndex]|] eqn:E; [|discriminate].
  apply bold_loop_spec in E as (Hle & Hsrc); [|lia|reflexivity].
  simpl in Hle, Hsrc.
  match goal with
  | |- (match ?e with Some _ => _ | None => _ end) = _ -> _ =>
      destruct e as [parts'|] eqn:Er; [|discriminate]
  end.
  intros H; inversion H; subst; clear H.
  assert (Hsrc' : concat (map source_of parts') = text).
  { destruct (Nat.ltb_spec lastIndex (length text)).
    - cbv zeta in Er.
      destruct (processCitations (slice_from lastIndex text) (length parts))
        as [cp|] eqn:Ec; [|discriminate].
      inversion Er; subst.
      apply processCitations_spec in Ec as (Ec & _).
      rewrite push_children_source, Ec, Hsrc. apply firstn_skipn.
    - inversion Er; subst. rewrite Hsrc. apply firstn_all2. lia. }
  destruct (Nat.ltb 0 (length parts')); simpl; auto.
Qed.

(** * Lines *)

Lemma split_nonempty sep s : split sep s <> [].
Proof.
  destruct s as [|c s]; simpl; [discriminate|].
  destruct (N.eqb c sep); [discriminate|].
  destruct (split sep s); discriminate.
Qed.

Lemma split_length sep s : length (split sep s) = S (count sep s).
Proof.
  unfold count. induction s as [|c s IH]; simpl; [reflexivity|].
  rewrite (N.eqb_sym sep c).
  destruct (N.eqb c sep); simpl; [now rewrite IH|].
  destruct (split sep s) eqn:E; [now destruct (split_nonempty sep s)|].
  simpl in *. exact IH.
Qed.

Lemma join_split sep s : join sep (split sep s) = s.
Proof.
  induction s as [|c s IH]; simpl; [reflexivity|].
  destruct (N.eqb_spec c sep) as [->|Hne].
  - destruct (split sep s) eqn:E; [now destruct (split_nonempty sep s)|].
    simpl in *. now rewrite IH.
  - destruct (split sep s) as [|l ls] eqn:E; [now destruct (split_nonempty sep s)|].
    destruct ls; simpl in *; now rewrite <- IH.
Qed.

Lemma split_forall (p : char -> bool) sep s :
  forallb p s = true ->
  Forall (fun l => forallb p l = true) (split sep s).
Proof.
  induction s as [|c s IH]; simpl; intros H.
  - repeat constructor.
  - apply andb_prop in H as [Hc Hs]. specialize (IH Hs).
    destruct (N.eqb c sep); [constructor; auto|].
    destruct (split sep s); inversion IH; subst; constructor; simpl; auto.
    all: rewrite Hc; simpl; auto.
Qed.

Lemma dropWhile_all p s : forallb p s = true -> dropWhile p s = [].
Proof.
  induction s as [|c s IH]; simpl; [reflexivity|].
  intros H. apply andb_prop in H as [-> Hs]. auto.
Qed.

Lemma trim_blank s : forallb Cls.space s = true -> trim s = [].
Proof.
  intros H. unfold trim. now rewrite (dropWhile_all _ _ H).
Qed.

Lemma is_empty_true s : is_empty s = true <-> s = [].
Proof. destruct s; simpl; split; congruence. Qed.

(** * One line, then all of them *)

Lemma parse_line_spec line c :
  exists b c',
    (forall index elements,
        parse_line index line (elements, c)
        = Some (elements ++ [{| key := index; block := b |}], c')) /\
    register_rule c b c' /\
    (b = Spacer <-> trim line = []).
Proof.
  unfold parse_line.
  destruct (is_empty (trim line)) eqn:He.
  { exists Spacer, c. apply is_empty_true in He. simpl. tauto. }
  assert (Hne : trim line <> []).
  { intros E. apply is_empty_true in E. congruence. }
  repeat match goal with
  | |- context [if matches ?t ?r then _ else _] => destruct (matches t r)
  end;
  match goal with
  | |- context [processBoldAndCitations ?content] =>
      destruct (processBoldAndCitations_total content) as (children & ->)
  end;
  eexists _, _; (split; [intros; reflexivity|]); simpl;
  (repeat split; auto; try discriminate; try tauto).
Qed.

Lemma forEach_spec : forall lines index elements c,
  exists es c',
    forEach lines index (elements, c) = Some (elements ++ es, c') /\
    rendered index c lines es c'.
Proof.
  induction lines as [|line lines IH]; intros index elements c; cbn [forEach].
  - exists [], c. rewrite app_nil_r. split; [reflexivity|constructor].
  - destruct (parse_line_spec line c) as (b & c1 & Hp & Hr & Hs).
    rewrite Hp.
    destruct (IH (S index) (elements ++ [{| key := index; block := b |}]) c1)
      as (es & c2 & -> & Hes).
    exists ({| key := index; block := b |} :: es), c2.
    rewrite <- app_assoc. split; [reflexivity|].
    econstructor; eauto.
Qed.

Lemma rendered_length i c lines es c' :
  rendered i c lines es c' -> length es = length lines.
Proof. induction 1; simpl; congruence. Qed.

Lemma rendered_nth i c lines es c' :
  rendered i c lines es c' ->
  forall j line, nth_error lines j = Some line ->
  exists b c0 c1,
    nth_error es j = Some {| key := i + j; block := b |} /\
    parse_line (i + j) line ([], c0) = Some ([{| key := i + j; block := b |}], c1) /\
    (b = Spacer <-> trim line = []).
Proof.
  induction 1 as [|i c line b c1 lines es c2 Hp Hr Hs Hes IH]; intros j l Hj.
  - destruct j; discriminate.
  - destruct j as [|j]; simpl in *.
    + inversion Hj; subst. exists b, c, c1. rewrite Nat.add_0_r.
      repeat split; try tauto. apply (Hp i []).
    + destruct (IH _ _ Hj) as (b' & c0 & c1' & Hn & Hp' & Hs').
      replace (i + S j) with (S i + j) by lia. eauto 6.
Qed.

Lemma parseMarkdown_spec text :
  text <> [] ->
  exists elements c',
    parseMarkdown text = Some (Div elements) /\
    rendered 0 0 (split Cls.newline text) elements c'.
Proof.
  intros Hne. unfold parseMarkdown.
  destruct text as [|c0 text]; [congruence|]. cbn [is_empty].
  destruct (forEach_spec (split Cls.newline (c0 :: text)) 0 [] 0)
    as (es & c' & -> & Hes).
  exists es, c'. split; [reflexivity|exact Hes].
Qed.

(** * The claims *)

(** ** One block per line *)

(** Claim C1, as stated, fails on the empty string: split on the line
    feed it is one (blank) line, and [parseMarkdown] hands the falsy text
    back without building any block. *)
Lemma C1_empty_input_has_no_block :
  ~ (forall text,
        exists r, parseMarkdown text = Some r /\
                  length (document r) = length (split Cls.newline text)).
Proof.
  intros H. destruct (H []) as (r & Hr & Hl).
  vm_compute in Hr. inversion Hr; subst. discriminate.
Qed.

(** Claim C1, amended: for every input string that is not empty,
    [parseMarkdown] returns the [<div>] of exactly one element per line of
    [text.split('\n')] (one more than the number of line feeds; joining the
    lines gives the input back, so the blank and the trailing ones count),
    the i-th element has key i and is what the callback builds for the i-th
    line, and it is a Spacer exactly when that line is blank after [trim].
    The empty string is handed back as it is, with no block. *)
Theorem C1_one_block_per_line :
  parseMarkdown [] = Some (Falsy []) /\
  forall text,
    is_empty text = false ->
    exists elements,
      parseMarkdown text = Some (Div elements) /\
      join Cls.newline (split Cls.newline text) = text /\
      length (document (Div elements)) = length (split Cls.newline text) /\
      length elements = S (count Cls.newline text) /\
      forall i line,
        nth_error (split Cls.newline text) i = Some line ->
        exists b c0 c1,
          nth_error elements i = Some {| key := i; block := b |} /\
          parse_line i line ([], c0) = Some ([{| key := i; block := b |}], c1) /\
          (b = Spacer <-> trim line = []).
Proof.
  split; [reflexivity|].
  intros text Hne.
  destruct (parseMarkdown_spec text) as (es & c' & Hp & Hr).
  { intros ->. discriminate. }
  exists es. split; [exact Hp|]. split; [apply join_split|].
  pose proof (rendered_length _ _ _ _ _ Hr) as Hl.
  split; [simpl; now rewrite length_map|].
  split; [now rewrite Hl, split_length|].
  intros i line Hi.
  destruct (rendered_nth _ _ _ _ _ Hr i line Hi) as (b & c0 & c1 & H1 & H2 & H3).
  exists b, c0, c1. auto.
Qed.

Lemma C1_one_block_per_line_witness :
  exists elements,
    parseMarkdown (js "* **Plan**" ++ [Cls.newline; Cls.newline] ++ js "done")
    = Some (Div elements) /\ length elements = 3.
Proof.
  destruct (proj2 C1_one_block_per_line
              (js "* **Plan**" ++ [Cls.newline; Cls.newline] ++ js "done"))
    as (es & Hp & _ & _ & Hl & _).
  - reflexivity.
  - exists es. split; [exact Hp | exact Hl].
Defined.

(** ** Empty and blank inputs *)

(** Claim C5, as stated, fails on its last example: the text of two line
    feeds splits into three empty lines, so three Spacers are built, not
    two. *)
Lemma C5_two_newlines_not_two_spacers :
  ~ (exists r, parseMarkdown [Cls.newline; Cls.newline] = Some r /\
               document r = [Spacer; Spacer]).
Proof.
  intros (r & Hr & Hd). vm_compute in Hr. inversion Hr; subst. discriminate.
Qed.

(** Claim C5, amended: the empty string yields the empty block sequence;
    an input of white space only yields Spacer blocks only, one per line
    of [text.split('\n')] when it is not empty; and the input of two line
    feeds yields exactly three Spacer blocks. *)
Theorem C5_blank_inputs :
  option_map document (parseMarkdown []) = Some [] /\
  (forall text,
      forallb Cls.space text = true ->
      exists r,
        parseMarkdown text = Some r /\
        Forall (fun b => b = Spacer) (document r) /\
        (is_empty text = false ->
         length (document r) = length (split Cls.newline text))) /\
  option_map document (parseMarkdown [Cls.newline; Cls.newline])
  = Some [Spacer; Spacer; Spacer].
Proof.
  split; [reflexivity|]. split; [|reflexivity].
  intros text Hws.
  destruct text as [|c0 text].
  { exists (Falsy []). repeat split; [constructor | discriminate]. }
  destruct (parseMarkdown_spec (c0 :: text)) as (es & c' & Hp & Hr);
    [discriminate|].
  exists (Div es). split; [exact Hp|].
  pose proof (split_forall _ Cls.newline _ Hws) as Hlines.
  split.
  - simpl. clear Hp.
    induction Hr as [|i c line b c1 lines es c2 _ _ Hs _ IH]; simpl;
      [constructor|].
    inversion Hlines; subst. constructor; [|now apply IH].
    apply Hs, trim_blank. assumption.
  - intros _. simpl. rewrite length_map.
    apply (rendered_length _ _ _ _ _ Hr).
Qed.

Lemma C5_blank_inputs_witness :
  exists r,
    parseMarkdown [32%N; Cls.newline; 9%N] = Some r /\
    Forall (fun b => b = Spacer) (document r).
Proof.
  destruct (proj1 (proj2 C5_blank_inputs) [32%N; Cls.newline; 9%N])
    as (r & Hp & Hs & _).
  - reflexivity.
  - exists r. split; [exact Hp | exact Hs].
Defined.

(** ** The numbering register *)

Lemma parseMarkdown_rendered text elements :
  parseMarkdown text = Some (Div elements) ->
  exists c', rendered 0 0 (split Cls.newline text) elements c'.
Proof.
  intros H. destruct text as [|c0 text]; [discriminate|].
  destruct (parseMarkdown_spec (c0 :: text)) as (es & c' & Hp & Hr);
    [discriminate|].
  rewrite Hp in H. inversion H; subst. eauto.
Qed.

(** ** The bold heading of a top-level bullet *)

(** Claim C6: at any value of the counter, the line
    [* **Direct Answer**: Paris] makes one BulletHeader whose children
    are the [<strong>] of [Direct Answer] with the colon absorbed and the
    string [ Paris], that is the spans [Bold("Direct Answer:")],
    [Text(" Paris")], and the counter is left at 0. *)
Theorem C6_direct_answer :
  let children :=
    Parts [Strong 0 (js "Direct Answer") (js ":"); Str (js " Paris")] in
  (forall index elements c,
      parse_line index (js "* **Direct Answer**: Paris") (elements, c)
      = Some (elements ++ [{| key := index; block := BulletHeader children |}], 0)) /\
  spans children = [Bold (js "Direct Answer:"); Text (js " Paris")] /\
  parseMarkdown (js "* **Direct Answer**: Paris")
  = Some (Div [{| key := 0; block := BulletHeader children |}]).
Proof.
  cbv zeta. split; [|split; reflexivity].
  intros index elements c. reflexivity.
Qed.


(** ** Matching forward: runs the quantifiers are bound to take *)

Lemma star_greedy_stop {A : Type} p (k : str -> option A) w s r :
  forallb p w = true -> stops p s -> k s = Some r ->
  star_greedy p k (w ++ s) = Some (w, r).
Proof.
  intros Hw Hs Hk. induction w as [|c w IH]; simpl.
  - destruct s as [|c s]; simpl in *; [|rewrite Hs]; unfold skip; now rewrite Hk.
  - simpl in Hw. apply andb_prop in Hw as [-> Hw]. now rewrite IH.
Qed.

Lemma star_greedy_end {A : Type} p (k : str -> option A) r s :
  (forall s', k s' = Some r) ->
  star_greedy p k s = Some (takeWhile p s, r).
Proof.
  intros Hk. induction s as [|c s IH]; simpl.
  - unfold skip. now rewrite Hk.
  - destruct (p c); [now rewrite IH|]. unfold skip. now rewrite Hk.
Qed.

Lemma star_greedy_some {A : Type} p (k : str -> option A) w s :
  forallb p w = true -> k s <> None -> star_greedy p k (w ++ s) <> None.
Proof.
  intros Hw Hk. induction w as [|c w IH]; simpl.
  - destruct s as [|c s]; simpl.
    + unfold skip. destruct (k []); [discriminate|congruence].
    + destruct (p c); [destruct (star_greedy p k s) as [[? ?]|]; [discriminate|]|];
        unfold skip; destruct (k (c :: s)); try discriminate; congruence.
  - simpl in Hw. apply andb_prop in Hw as [-> Hw].
    destruct (star_greedy p k (w ++ s)) as [[? ?]|]; [discriminate|].
    now destruct (IH Hw).
Qed.

Lemma match_here_one p re c s :
  p c = true ->
  match_here (One p :: re) (c :: s) = option_map (cons [c]) (match_here re s).
Proof.
  intros Hc. simpl. rewrite Hc. destruct (match_here re s); reflexivity.
Qed.

Lemma match_here_plus_stop p re w s ps :
  w <> [] -> forallb p w = true -> stops p s ->
  match_here re s = Some ps ->
  match_here (Plus p :: re) (w ++ s) = Some (w :: ps).
Proof.
  intros Hne Hw Hs Hk. destruct w as [|c w]; [congruence|].
  simpl in *. apply andb_prop in Hw as [-> Hw].
  now rewrite (star_greedy_stop p (match_here re) w s ps).
Qed.

Lemma match_here_star_end p s :
  match_here [Star p] s = Some [takeWhile p s].
Proof.
  simpl. now rewrite (star_greedy_end p (match_here []) []).
Qed.

Lemma match_here_star_some p re w s :
  forallb p w = true -> match_here re s <> None ->
  match_here (Star p :: re) (w ++ s) <> None.
Proof.
  intros Hw Hk. simpl.
  pose proof (star_greedy_some p (match_here re) w s Hw Hk) as H.
  destruct (star_greedy p (match_here re) (w ++ s)); [discriminate|congruence].
Qed.

Lemma bullet_not_space c : Cls.bullet c = true -> Cls.space c = false.
Proof.
  unfold Cls.bullet. intros H.
  apply orb_prop in H as [H|H]; [apply orb_prop in H as [H|H]|];
    apply N.eqb_eq in H; subst; reflexivity.
Qed.

(** ** Text without citation markers *)

Lemma takeWhile_stop p w s :
  forallb p w = true -> stops p s -> takeWhile p (w ++ s) = w.
Proof.
  induction w as [|c w IH]; simpl; intros Hw Hs.
  - destruct s; simpl in *; [reflexivity | now rewrite Hs].
  - apply andb_prop in Hw as [-> Hw]. now rewrite IH.
Qed.

Lemma dropWhile_stop p w s :
  forallb p w = true -> stops p s -> dropWhile p (w ++ s) = s.
Proof.
  induction w as [|c w IH]; simpl; intros Hw Hs.
  - destruct s; simpl in *; [reflexivity | now rewrite Hs].
  - apply andb_prop in Hw as [-> Hw]. now rewrite IH.
Qed.

Lemma takeWhile_dropWhile p s : takeWhile p s ++ dropWhile p s = s.
Proof.
  induction s as [|c s IH]; simpl; [reflexivity|].
  destruct (p c); simpl; congruence.
Qed.

Lemma marker_here_marker number post :
  is_number number -> marker_here (marker number ++ post) = true.
Proof.
  intros [Hne Hd]. unfold marker. simpl. rewrite <- app_assoc. simpl.
  rewrite takeWhile_stop, dropWhile_stop by (auto; reflexivity).
  destruct number; [congruence|reflexivity].
Qed.

Lemma has_marker_eq s :
  has_marker s
  = marker_here s || match s with _ :: s' => has_marker s' | [] => false end.
Proof. destruct s; reflexivity. Qed.

Lemma has_marker_false text : has_marker text = false -> no_marker text.
Proof.
  intros H pre number post Hn ->. revert H.
  induction pre as [|c pre IH]; intros H; rewrite has_marker_eq in H.
  - cbn [app] in H. rewrite marker_here_marker in H by exact Hn. discriminate.
  - cbn [app] in H. apply orb_false_elim in H as [_ H]. auto.
Qed.

Lemma no_marker_no_match text :
  no_marker text ->
  forall pre rest, text = pre ++ rest ->
  match_here (atoms citationRegex) rest = None.
Proof.
  intros Hn pre rest ->.
  destruct (match_here (atoms citationRegex) rest) as [ps|] eqn:E; [|reflexivity].
  apply citation_match_inv in E as (number & rest' & _ & -> & Hnum).
  now destruct (Hn pre number rest' Hnum).
Qed.

Lemma processCitations_parts_nonempty text keyOffset c :
  processCitations text keyOffset = Some c -> parts_of c <> [].
Proof.
  unfold processCitations.
  destruct (citations_loop (S (length text)) text keyOffset 0 [] 0)
    as [[parts lastIndex]|]; [|discriminate].
  match goal with |- context [Nat.ltb 1 (length ?ps)] => set (parts' := ps) end.
  destruct (Nat.ltb_spec 1 (length parts')) as [Hl|Hl];
    intros H; inversion H; subst; simpl; [|discriminate].
  destruct parts'; simpl in *; [lia|discriminate].
Qed.



(** ** A marker that is the whole fragment *)

Lemma citation_match number rest :
  is_number number ->
  match_here (atoms citationRegex) (marker number ++ rest)
  = Some [[Cls.lbracket]; number; [Cls.rbracket]].
Proof.
  intros [Hne Hd]. unfold citationRegex, marker. cbn [atoms app].
  rewrite match_here_one by reflexivity. rewrite <- app_assoc.
  rewrite (match_here_plus_stop _ _ number (Cls.rbracket :: rest)
             [[Cls.rbracket]]); auto; reflexivity.
Qed.

Lemma exec_at_start r text ps :
  anchored r = false ->
  match_here (atoms r) text = Some ps ->
  exec r text 0 = Some (mk_match r 0 ps).
Proof.
  intros Ha H. unfold exec. rewrite Ha. cbn [Nat.leb skipn].
  destruct text; simpl; now rewrite H.
Qed.

Lemma exec_at_end r text :
  anchored r = false ->
  match_here (atoms r) [] = None ->
  exec r text (length text) = None.
Proof.
  intros Ha H. unfold exec. rewrite Ha, Nat.leb_refl, skipn_all.
  simpl. now rewrite H.
Qed.

(** Claim C2, at the inputs that break it: when the fragment is one
    citation marker and nothing else, [parts] holds the badge alone, the
    test [parts.length > 1] fails and the text is returned, so the
    marker is shown as plain text; this is so for every number.  With
    text around the markers the badges are kept, as in the example of
    the claim. *)
Theorem C2_lone_marker_stays_text :
  (forall number keyOffset,
      is_number number ->
      processCitations (marker number) keyOffset = Some (Plain (marker number))) /\
  processCitations (js "[1]") 0 = Some (Plain (js "[1]")) /\
  option_map spans (processBoldAndCitations (js "[1]")) = Some [Text (js "[1]")] /\
  option_map spans (processBoldAndCitations (js "**Sources:**[12]"))
  = Some [Bold (js "Sources:"); Text (js "[12]")] /\
  option_map spans (processCitations (js "See [1] and [2] for details") 0)
  = Some [Text (js "See "); Citation 1; Text (js " and "); Citation 2;
          Text (js " for details")].
Proof.
  split; [|repeat split; reflexivity].
  intros number keyOffset Hn.
  pose proof (citation_match number [] Hn) as Hm. rewrite app_nil_r in Hm.
  unfold processCitations. rewrite citations_loop_S.
  rewrite (exec_at_start citationRegex _ _ eq_refl Hm).
  cbv zeta. cbn [index mk_match].
  change (Nat.ltb 0 0) with false. cbv iota.
  change (get (mk_match citationRegex 0
                 [[Cls.lbracket]; number; [Cls.rbracket]]) 0)
    with (marker number).
  change (0 + length (marker number)) with (length (marker number)).
  assert (Hf : length (marker number) = S (length (number ++ [Cls.rbracket])))
    by reflexivity.
  rewrite Hf at 1. rewrite citations_loop_S.
  rewrite (exec_at_end citationRegex (marker number) eq_refl eq_refl).
  rewrite Nat.ltb_irrefl. reflexivity.
Qed.

Lemma C2_lone_marker_stays_text_witness :
  processCitations (js "[42]") 3 = Some (Plain (js "[42]")).
Proof.
  apply (proj1 C2_lone_marker_stays_text (js "42") 3).
  split; [discriminate|reflexivity].
Defined.

(** ** Bold delimiters that are never closed *)

Lemma has_pair_eq s :
  has_pair s
  = match s with
    | a :: t =>
        match t with
        | b :: _ => Cls.lit Cls.star a && Cls.lit Cls.star b
        | [] => false
        end
        || has_pair t
    | [] => false
    end.
Proof. destruct s; reflexivity. Qed.

Lemma closed_pair_eq s :
  closed_pair s
  = match s with
    | a :: t =>
        match t with
        | b :: u => Cls.lit Cls.star a && Cls.lit Cls.star b && has_pair u
        | [] => false
        end
        || closed_pair t
    | [] => false
    end.
Proof. destruct s; reflexivity. Qed.

Lemma has_pair_after w t : has_pair (w ++ Cls.star :: Cls.star :: t) = true.
Proof.
  induction w as [|c w IH]; [reflexivity|].
  cbn [app]. rewrite has_pair_eq, IH. apply orb_true_r.
Qed.

Lemma closed_pair_suffix pre s : closed_pair s = true -> closed_pair (pre ++ s) = true.
Proof.
  intros H. induction pre as [|c pre IH]; [exact H|].
  cbn [app]. rewrite closed_pair_eq, IH. apply orb_true_r.
Qed.

Lemma has_pair_nonempty s : has_pair s = true -> s <> [].
Proof. destruct s; [discriminate|discriminate]. Qed.

Lemma unclosed_no_match text :
  closed_pair text = false ->
  forall pre rest, text = pre ++ rest ->
  match_here (atoms boldRegex) rest = None.
Proof.
  intros Hc pre rest ->.
  destruct (match_here (atoms boldRegex) rest) as [ps|] eqn:E; [|reflexivity].
  apply bold_match_inv in E as (boldText & colon & rest' & _ & -> & _ & _).
  rewrite closed_pair_suffix in Hc; [discriminate|].
  rewrite closed_pair_eq.
  change (Cls.lit Cls.star Cls.star) with true.
  cbn [andb]. now rewrite has_pair_after.
Qed.

(** * Nested bullets *)

(** Claim C7, as stated, fails for two markers with nothing between
    them: the pattern of the nested branch asks for white space after
    the first marker, and the line [-- item] falls through to the last
    branch. *)
Lemma C7_adjacent_markers_fall_through :
  ~ (forall line b1 b2 rest c,
        trim line = b1 :: b2 :: rest ->
        Cls.bullet b1 = true -> Cls.bullet b2 = true ->
        matches (trim line) bulletHeaderRegex = false ->
        exists children,
          parse_line 0 line ([], c)
          = Some ([{| key := 0; block := NestedNumberedItem (S c) children |}], S c)).
Proof.
  intros H.
  destruct (H (js "-- item") 45%N 45%N (js " item") 0) as (children & Hc);
    try reflexivity.
  vm_compute in Hc. discriminate.
Qed.

Lemma nested_match b1 ws b2 rest :
  Cls.bullet b1 = true -> ws <> [] -> forallb Cls.space ws = true ->
  Cls.bullet b2 = true ->
  match_here (atoms nestedRegex) (b1 :: ws ++ b2 :: rest) = Some [[b1]; ws; [b2]] /\
  match_here (atoms nestedPrefixRegex) (b1 :: ws ++ b2 :: rest)
  = Some [[b1]; ws; [b2]; takeWhile Cls.space rest].
Proof.
  intros H1 Hne Hws H2. pose proof (bullet_not_space _ H2) as Hs.
  unfold nestedRegex, nestedPrefixRegex. cbn [atoms]. split.
  - rewrite match_here_one by exact H1.
    rewrite (match_here_plus_stop _ _ ws (b2 :: rest) [[b2]]); auto.
    rewrite match_here_one by exact H2. reflexivity.
  - rewrite match_here_one by exact H1.
    rewrite (match_here_plus_stop _ _ ws (b2 :: rest)
               [[b2]; takeWhile Cls.space rest]); auto.
    rewrite match_here_one by exact H2. now rewrite match_here_star_end.
Qed.

(** Claim C7, amended: every line whose trimmed form is a bullet
    marker, one or more white-space characters and a second bullet
    marker, and which does not match the BulletHeader pattern, is made a
    NestedNumberedItem; the counter is incremented and its new value is
    the number shown; the content handed to the tokenizer is what
    follows the second marker, without its leading white space. *)
Theorem C7_nested_numbered_item :
  forall index line elements c b1 ws b2 rest,
    trim line = b1 :: ws ++ b2 :: rest ->
    Cls.bullet b1 = true ->
    is_empty ws = false ->
    forallb Cls.space ws = true ->
    Cls.bullet b2 = true ->
    matches (trim line) bulletHeaderRegex = false ->
    exists children,
      processBoldAndCitations (dropWhile Cls.space rest) = Some children /\
      parse_line index line (elements, c)
      = Some (elements
                ++ [{| key := index; block := NestedNumberedItem (S c) children |}],
              S c).
Proof.
  intros index line elements c b1 ws b2 rest Ht H1 Hne Hws H2 Hh.
  assert (Hne' : ws <> []) by (intros ->; discriminate).
  destruct (nested_match b1 ws b2 rest H1 Hne' Hws H2) as (Hm & Hp).
  destruct (processBoldAndCitations_total (dropWhile Cls.space rest))
    as (children & Hc).
  exists children. split; [exact Hc|].
  unfold parse_line. rewrite Ht in *. cbn [is_empty]. rewrite Hh.
  rewrite (matches_anchored _ nestedRegex eq_refl), Hm.
  rewrite (replace_anchored _ nestedPrefixRegex _ eq_refl Hp).
  assert (E : b1 :: ws ++ b2 :: rest
              = concat [[b1]; ws; [b2]; takeWhile Cls.space rest]
                  ++ dropWhile Cls.space rest).
  { simpl. rewrite app_nil_r, <- !app_assoc. simpl.
    now rewrite takeWhile_dropWhile. }
  rewrite E at 1. rewrite skipn_prefix, Hc. reflexivity.
Qed.

Lemma C7_nested_numbered_item_witness :
  exists children,
    processBoldAndCitations (js "Agentic AI refers to autonomy") = Some children /\
    parse_line 4 (js "  * * Agentic AI refers to autonomy") ([], 1)
    = Some ([{| key := 4; block := NestedNumberedItem 2 children |}], 2).
Proof.
  apply (C7_nested_numbered_item 4 (js "  * * Agentic AI refers to autonomy") [] 1
           42%N [32%N] 42%N (js " Agentic AI refers to autonomy"));
    reflexivity.
Defined.

(** * Totality and the last branch *)

Lemma parseMarkdown_total text : exists r, parseMarkdown text = Some r.
Proof.
  destruct text as [|c0 text]; [now exists (Falsy [])|].
  destruct (parseMarkdown_spec (c0 :: text)) as (es & c' & Hp & _);
    [discriminate|eauto].
Qed.

(** Claim C9: [parseMarkdown] returns for every string, both loops of
    the tokenizer having fuel to spare on every text: the wrapping
    [<div>] when the string is not empty, the string itself when it is.
    A line that is not blank and matches none of the six patterns is
    made a Paragraph of its trimmed text; no branch is left without an
    element. *)
Theorem C9_parser_is_total :
  (forall text, exists r, parseMarkdown text = Some r) /\
  (forall text,
      is_empty text = false ->
      exists elements, parseMarkdown text = Some (Div elements)) /\
  (forall index line elements c,
      is_empty (trim line) = false ->
      matches (trim line) bulletHeaderRegex = false ->
      matches (trim line) nestedRegex = false ->
      matches (trim line) bulletRegex = false ->
      matches (trim line) plusRegex = false ->
      matches (trim line) numberedRegex = false ->
      matches (trim line) headerRegex = false ->
      exists children,
        processBoldAndCitations (trim line) = Some children /\
        parse_line index line (elements, c)
        = Some (elements ++ [{| key := index; block := Paragraph children |}], c)).
Proof.
  split; [exact parseMarkdown_total|]. split.
  - intros text Hne.
    destruct (parseMarkdown_spec text) as (es & c' & Hp & _); [|eauto].
    intros ->. discriminate.
  - intros index line elements c He H1 H2 H3 H4 H5 H6.
    destruct (processBoldAndCitations_total (trim line)) as (children & Hc).
    exists children. split; [exact Hc|].
    unfold parse_line. rewrite He, H1, H2, H3, H4, H5, H6, Hc. reflexivity.
Qed.

Lemma C9_parser_is_total_witness :
  exists children,
    processBoldAndCitations (js "No markers here.") = Some children /\
    parse_line 0 (js " No markers here. ") ([], 3)
    = Some ([{| key := 0; block := Paragraph children |}], 3).
Proof.
  apply (proj2 (proj2 C9_parser_is_total) 0 (js " No markers here. ") [] 3);
    reflexivity.
Defined.

(** * A bold span right after the bullet *)

Lemma match_here_star_skip p re s ps :
  stops p s -> match_here re s = Some ps ->
  match_here (Star p :: re) s = Some ([] :: ps).
Proof.
  intros Hs Hk.
  pose proof (star_greedy_stop p (match_here re) [] s ps eq_refl Hs Hk) as H.
  cbn [app] in H. cbn [match_here]. now rewrite H.
Qed.

Lemma header_tail_some rest :
  match_here [lit_star; lit_star; Opt (Cls.lit Cls.colon)]
             (Cls.star :: Cls.star :: rest) <> None.
Proof.
  unfold lit_star. rewrite !match_here_one by reflexivity.
  simpl. destruct rest as [|c rest]; simpl; [discriminate|].
  destruct (Cls.lit Cls.colon c); discriminate.
Qed.

Lemma bullet_header_match b boldText rest :
  Cls.bullet b = true -> forallb Cls.dot boldText = true ->
  match_here (atoms bulletHeaderRegex) (b :: delimited boldText rest) <> None.
Proof.
  intros Hb Hd. unfold bulletHeaderRegex. cbn [atoms].
  rewrite match_here_one by exact Hb.
  destruct (match_here
              [lit_star; lit_star; Star Cls.dot; lit_star; lit_star;
               Opt (Cls.lit Cls.colon)]
              (delimited boldText rest)) as [ps|] eqn:E.
  - rewrite (match_here_star_skip _ _ _ ps); [discriminate|reflexivity|exact E].
  - exfalso. revert E. unfold delimited, lit_star at 1 2.
    rewrite !match_here_one by reflexivity.
    pose proof (match_here_star_some Cls.dot
                  [lit_star; lit_star; Opt (Cls.lit Cls.colon)]
                  boldText (Cls.star :: Cls.star :: rest) Hd
                  (header_tail_some rest)) as H.
    destruct (match_here _ (boldText ++ _)); [discriminate|congruence].
Qed.

(** Claim C10: every line whose trimmed form is a bullet marker
    directly followed by a bold span (two stars, text without a line
    terminator, two stars) and anything after it is made a BulletHeader
    of the span and what follows it, and the counter is left at 0; so is
    the line [***Direct Answer**:], whose colon goes into the
    [<strong>]. *)
Theorem C10_header_without_space :
  (forall index line elements c b boldText rest,
      trim line = b :: delimited boldText rest ->
      Cls.bullet b = true ->
      forallb Cls.dot boldText = true ->
      exists children,
        processBoldAndCitations (delimited boldText rest) = Some children /\
        parse_line index line (elements, c)
        = Some (elements ++ [{| key := index; block := BulletHeader children |}], 0)) /\
  (forall index elements c,
      parse_line index (js "***Direct Answer**:") (elements, c)
      = Some (elements
                ++ [{| key := index;
                       block := BulletHeader
                                  (Parts [Strong 0 (js "Direct Answer") (js ":")]) |}],
              0)).
Proof.
  split; [|intros; reflexivity].
  intros index line elements c b boldText rest Ht Hb Hd.
  destruct (processBoldAndCitations_total (delimited boldText rest))
    as (children & Hc).
  exists children. split; [exact Hc|].
  unfold parse_line. rewrite Ht. cbn [is_empty].
  rewrite (matches_anchored _ bulletHeaderRegex eq_refl).
  pose proof (bullet_header_match b boldText rest Hb Hd) as Hm.
  destruct (match_here (atoms bulletHeaderRegex) (b :: delimited boldText rest));
    [|congruence].
  assert (Hp : match_here (atoms bulletPrefixRegex) (b :: delimited boldText rest)
               = Some [[b]; []]).
  { unfold bulletPrefixRegex. cbn [atoms].
    rewrite match_here_one by exact Hb. now rewrite match_here_star_end. }
  rewrite (replace_anchored _ bulletPrefixRegex _ eq_refl Hp).
  cbn [concat app length skipn]. rewrite Hc. reflexivity.
Qed.

Lemma C10_header_without_space_witness :
  exists children,
    processBoldAndCitations (js "**Direct Answer**: Paris") = Some children /\
    parse_line 2 (js "-**Direct Answer**: Paris") ([], 5)
    = Some ([{| key := 2; block := BulletHeader children |}], 0).
Proof.
  apply (proj1 C10_header_without_space 2 (js "-**Direct Answer**: Paris") [] 5
           45%N (js "Direct Answer") (js ": Paris"));
    reflexivity.
Defined.

(** * The remaining branches of [parseMarkdown] *)

Lemma matches_false s r :
  anchored r = true -> match_here (atoms r) s = None -> matches s r = false.
Proof. intros Ha H. now rewrite matches_anchored, H. Qed.

Lemma matches_true s r ps :
  anchored r = true -> match_here (atoms r) s = Some ps -> matches s r = true.
Proof. intros Ha H. now rewrite matches_anchored, H. Qed.

Lemma match_here_one_fail p re c s :
  p c = false -> match_here (One p :: re) (c :: s) = None.
Proof. intros Hc. simpl. now rewrite Hc. Qed.

Lemma match_here_plus_fail p re s :
  stops p s -> match_here (Plus p :: re) s = None.
Proof.
  intros Hs. destruct s as [|c s]; simpl in *; [reflexivity|now rewrite Hs].
Qed.

Lemma match_here_star_stops p re s :
  stops p s ->
  match_here (Star p :: re) s = option_map (cons []) (match_here re s).
Proof.
  intros Hs. cbn [match_here].
  destruct s as [|c s]; simpl in *; [|rewrite Hs];
    unfold skip; destruct (match_here re _); reflexivity.
Qed.

(** A run of [p] followed by something that does not begin with [p] can
    be read in one way only. *)
Lemma run_unique p w1 s1 w2 s2 :
  forallb p w1 = true -> stops p s1 ->
  forallb p w2 = true -> stops p s2 ->
  w1 ++ s1 = w2 ++ s2 -> w1 = w2 /\ s1 = s2.
Proof.
  intros H1 S1 H2 S2 E.
  pose proof (takeWhile_stop p w1 s1 H1 S1) as T1.
  pose proof (takeWhile_stop p w2 s2 H2 S2) as T2.
  pose proof (dropWhile_stop p w1 s1 H1 S1) as D1.
  pose proof (dropWhile_stop p w2 s2 H2 S2) as D2.
  rewrite E in T1, D1. split; congruence.
Qed.

Lemma digit_not_marker c :
  Cls.digit c = true -> Cls.bullet c = false /\ Cls.lit Cls.plus c = false.
Proof.
  unfold Cls.digit, Cls.bullet, Cls.lit, Cls.plus. intros H.
  apply andb_prop in H as [H1 H2].
  apply N.leb_le in H1, H2.
  split; repeat (apply orb_false_intro); apply N.eqb_neq; lia.
Qed.

(** After a bullet and white space, text that does not begin with a
    marker rules the two patterns before the plain bullet out. *)
Lemma plain_bullet_not_header b ws rest :
  forallb Cls.space ws = true -> stops Cls.space rest -> stops Cls.bullet rest ->
  match_here (atoms bulletHeaderRegex) (b :: ws ++ rest) = None /\
  match_here (atoms nestedRegex) (b :: ws ++ rest) = None.
Proof.
  intros Hws Hs Hb. split.
  - destruct (match_here (atoms bulletHeaderRegex) (b :: ws ++ rest)) as [ps|] eqn:E;
      [exfalso|reflexivity].
    unfold bulletHeaderRegex, lit_star in E. cbn [atoms] in E.
    apply match_here_cons in E as (w1 & ps1 & s1 & -> & E1 & (c1 & -> & P1) & E).
    apply match_here_cons in E as (w2 & ps2 & s2 & -> & -> & Hw2 & E).
    apply match_here_cons in E as (w3 & ps3 & s3 & -> & -> & (c3 & -> & P3) & E).
    apply lit_true in P3. subst c3. inversion E1; subst.
    destruct (run_unique Cls.space ws rest w2 ([Cls.star] ++ s3)) as [_ Hr]; auto.
    { reflexivity. }
    subst rest. simpl in Hb. discriminate.
  - destruct (match_here (atoms nestedRegex) (b :: ws ++ rest)) as [ps|] eqn:E;
      [exfalso|reflexivity].
    unfold nestedRegex in E. cbn [atoms] in E.
    apply match_here_cons in E as (w1 & ps1 & s1 & -> & E1 & (c1 & -> & P1) & E).
    apply match_here_cons in E as (w2 & ps2 & s2 & -> & -> & (_ & Hw2) & E).
    apply match_here_cons in E as (w3 & ps3 & s3 & -> & -> & (c3 & -> & P3) & E).
    inversion E1; subst.
    destruct (run_unique Cls.space ws rest w2 ([c3] ++ s3)) as [_ Hr]; auto.
    { simpl. now apply bullet_not_space. }
    subst rest. simpl in Hb. congruence.
Qed.

Lemma skipn_pieces (ps : list str) (t rest : str) :
  t = concat ps ++ rest -> skipn (length (concat ps)) t = rest.
Proof. intros ->. apply skipn_prefix. Qed.

Lemma str_match_anchored s r ps :
  anchored r = true ->
  match_here (atoms r) s = Some ps ->
  str_match s r = Some (mk_match r 0 ps).
Proof.
  intros Ha H. unfold str_match, exec. rewrite Ha. simpl. now rewrite H.
Qed.

(** Property X1.  The plain bullet (source lines 55 to 64): a trimmed line made of a
    bullet marker, white space and text that does not begin with a
    marker is a BulletItem whose content is that text; the counter is not
    touched. *)
Theorem bullet_item_branch :
  forall index line elements c b ws rest,
    trim line = b :: ws ++ rest ->
    Cls.bullet b = true ->
    is_empty ws = false ->
    forallb Cls.space ws = true ->
    stops Cls.space rest ->
    stops Cls.bullet rest ->
    exists children,
      processBoldAndCitations rest = Some children /\
      parse_line index line (elements, c)
      = Some (elements ++ [{| key := index; block := BulletItem children |}], c).
Proof.
  intros index line elements c b ws rest Ht Hb Hne Hws Hs Hnb.
  destruct (plain_bullet_not_header b ws rest Hws Hs Hnb) as (Hh & Hn).
  destruct (processBoldAndCitations_total rest) as (children & Hc).
  exists children. split; [exact Hc|].
  unfold parse_line. rewrite Ht. cbn [is_empty].
  rewrite (matches_false _ bulletHeaderRegex eq_refl Hh).
  rewrite (matches_false _ nestedRegex eq_refl Hn).
  destruct ws as [|w ws]; [discriminate|].
  simpl in Hws. apply andb_prop in Hws as [Hw Hws].
  assert (Hm : match_here (atoms bulletRegex) (b :: (w :: ws) ++ rest)
               = Some [[b]; [w]]).
  { unfold bulletRegex. cbn [atoms app].
    now rewrite !match_here_one by assumption. }
  rewrite (matches_true _ bulletRegex _ eq_refl Hm).
  assert (Hp : match_here (atoms bulletPrefixRegex) (b :: (w :: ws) ++ rest)
               = Some [[b]; w :: ws]).
  { unfold bulletPrefixRegex. cbn [atoms].
    rewrite match_here_one by assumption. rewrite match_here_star_end.
    rewrite takeWhile_stop; [reflexivity| |exact Hs].
    simpl. now rewrite Hw. }
  rewrite (replace_anchored _ bulletPrefixRegex _ eq_refl Hp).
  rewrite (skipn_pieces _ _ rest), Hc; [reflexivity|].
  simpl. now rewrite app_nil_r.
Qed.

Lemma bullet_item_branch_witness :
  exists children,
    processBoldAndCitations (js "see [2] first") = Some children /\
    parse_line 1 (js " -  see [2] first") ([], 4)
    = Some ([{| key := 1; block := BulletItem children |}], 4).
Proof.
  apply (bullet_item_branch 1 (js " -  see [2] first") [] 4
           45%N (js "  ") (js "see [2] first")); reflexivity.
Defined.

(** Property X2.  The plus bullet (source lines 65 to 74): a trimmed line that begins
    with a plus sign and a white-space character is a PlusBulletItem
    whose content is what follows, without its leading white space; the
    counter is not touched. *)
Theorem plus_item_branch :
  forall index line elements c w rest,
    trim line = Cls.plus :: w :: rest ->
    Cls.space w = true ->
    exists children,
      processBoldAndCitations (dropWhile Cls.space rest) = Some children /\
      parse_line index line (elements, c)
      = Some (elements ++ [{| key := index; block := PlusBulletItem children |}], c).
Proof.
  intros index line elements c w rest Ht Hw.
  destruct (processBoldAndCitations_total (dropWhile Cls.space rest))
    as (children & Hc).
  exists children. split; [exact Hc|].
  unfold parse_line. rewrite Ht. cbn [is_empty].
  rewrite (matches_false _ bulletHeaderRegex eq_refl),
          (matches_false _ nestedRegex eq_refl),
          (matches_false _ bulletRegex eq_refl)
    by (apply match_here_one_fail; reflexivity).
  assert (Hm : match_here (atoms plusRegex) (Cls.plus :: w :: rest)
               = Some [[Cls.plus]; [w]]).
  { unfold plusRegex. cbn [atoms].
    rewrite match_here_one by reflexivity. now rewrite match_here_one by exact Hw. }
  rewrite (matches_true _ plusRegex _ eq_refl Hm).
  assert (Hp : match_here (atoms plusPrefixRegex) (Cls.plus :: w :: rest)
               = Some [[Cls.plus]; w :: takeWhile Cls.space rest]).
  { unfold plusPrefixRegex. cbn [atoms].
    rewrite match_here_one by reflexivity. rewrite match_here_star_end.
    simpl. now rewrite Hw. }
  rewrite (replace_anchored _ plusPrefixRegex _ eq_refl Hp).
  rewrite (skipn_pieces _ _ (dropWhile Cls.space rest)), Hc; [reflexivity|].
  simpl. now rewrite app_nil_r, takeWhile_dropWhile.
Qed.

Lemma plus_item_branch_witness :
  exists children,
    processBoldAndCitations (js "more **detail**") = Some children /\
    parse_line 0 (js "+  more **detail**") ([], 2)
    = Some ([{| key := 0; block := PlusBulletItem children |}], 2).
Proof.
  apply (plus_item_branch 0 (js "+  more **detail**") [] 2
           32%N (js " more **detail**")); reflexivity.
Defined.

(** Property X3.  The numbered item (source lines 75 to 85): a trimmed line made of
    one or more digits, a period and a white-space character is a
    NumberedItem; its label is the digits exactly as written (the
    fallback label [1] is never used) and its content what follows,
    without its leading white space; the counter is not touched. *)
Theorem numbered_item_branch :
  forall index line elements c digits w rest,
    trim line = digits ++ Cls.period :: w :: rest ->
    is_empty digits = false ->
    forallb Cls.digit digits = true ->
    Cls.space w = true ->
    exists children,
      processBoldAndCitations (dropWhile Cls.space rest) = Some children /\
      parse_line index line (elements, c)
      = Some (elements
                ++ [{| key := index; block := NumberedItem digits children |}], c).
Proof.
  intros index line elements c digits w rest Ht Hne Hd Hw.
  destruct (processBoldAndCitations_total (dropWhile Cls.space rest))
    as (children & Hc).
  exists children. split; [exact Hc|].
  assert (Hne' : digits <> []) by (intros ->; discriminate).
  destruct digits as [|d ds] eqn:Ed; [congruence|]. rewrite <- Ed in *.
  assert (Hd0 : Cls.digit d = true).
  { rewrite Ed in Hd. simpl in Hd. now apply andb_prop in Hd as [? _]. }
  destruct (digit_not_marker d Hd0) as (Hnb & Hnp).
  assert (Hstop : stops Cls.digit (Cls.period :: w :: rest)) by reflexivity.
  unfold parse_line. rewrite Ht.
  replace (is_empty (digits ++ Cls.period :: w :: rest)) with false
    by (rewrite Ed; reflexivity).
  rewrite (matches_false _ bulletHeaderRegex eq_refl),
          (matches_false _ nestedRegex eq_refl),
          (matches_false _ bulletRegex eq_refl),
          (matches_false _ plusRegex eq_refl)
    by (rewrite Ed; apply match_here_one_fail; assumption).
  assert (Hm : match_here (atoms numberedRegex) (digits ++ Cls.period :: w :: rest)
               = Some [digits; [Cls.period]; [w]]).
  { unfold numberedRegex. cbn [atoms].
    apply match_here_plus_stop; auto.
    rewrite match_here_one by reflexivity. now rewrite match_here_one by exact Hw. }
  rewrite (matches_true _ numberedRegex _ eq_refl Hm).
  assert (Hp : match_here (atoms numberedPrefixRegex)
                 (digits ++ Cls.period :: w :: rest)
               = Some [digits; [Cls.period]; w :: takeWhile Cls.space rest]).
  { unfold numberedPrefixRegex. cbn [atoms].
    apply match_here_plus_stop; auto.
    rewrite match_here_one by reflexivity. rewrite match_here_star_end.
    simpl. now rewrite Hw. }
  rewrite (replace_anchored _ numberedPrefixRegex _ eq_refl Hp).
  assert (Hn : match_here (atoms numberRegex) (digits ++ Cls.period :: w :: rest)
               = Some [digits; [Cls.period]]).
  { unfold numberRegex. cbn [atoms].
    apply match_here_plus_stop; auto. }
  rewrite (str_match_anchored _ numberRegex _ eq_refl Hn).
  change (get (mk_match numberRegex 0 [digits; [Cls.period]]) 1) with digits.
  rewrite Hne.
  rewrite (skipn_pieces _ _ (dropWhile Cls.space rest)), Hc; [reflexivity|].
  simpl. rewrite app_nil_r, <- app_assoc. simpl.
  now rewrite takeWhile_dropWhile.
Qed.

Lemma numbered_item_branch_witness :
  exists children,
    processBoldAndCitations (js "third step") = Some children /\
    parse_line 2 (js "007. third step") ([], 1)
    = Some ([{| key := 2; block := NumberedItem (js "007") children |}], 1).
Proof.
  apply (numbered_item_branch 2 (js "007. third step") [] 1
           (js "007") 32%N (js "third step")); reflexivity.
Defined.

(** A line that begins with two stars is no bullet of any kind, and no
    bullet header unless a third star follows. *)
Lemma two_stars_no_bullet t :
  match_here (atoms nestedRegex) (Cls.star :: Cls.star :: t) = None /\
  match_here (atoms bulletRegex) (Cls.star :: Cls.star :: t) = None /\
  match_here (atoms plusRegex) (Cls.star :: Cls.star :: t) = None /\
  match_here (atoms numberedRegex) (Cls.star :: Cls.star :: t) = None /\
  (stops (Cls.lit Cls.star) t ->
   match_here (atoms bulletHeaderRegex) (Cls.star :: Cls.star :: t) = None).
Proof.
  split; [reflexivity|]. split; [reflexivity|].
  split; [reflexivity|]. split; [reflexivity|].
  intros Hs. unfold bulletHeaderRegex, lit_star. cbn [atoms].
  rewrite match_here_one by reflexivity.
  rewrite match_here_star_stops by reflexivity.
  rewrite match_here_one by reflexivity.
  destruct t as [|c0 t]; [reflexivity|].
  simpl in Hs. now rewrite match_here_one_fail.
Qed.

Lemma header_match boldText colon :
  forallb Cls.dot boldText = true ->
  colon = [] \/ colon = [Cls.colon] ->
  match_here (atoms headerRegex) (delimited boldText colon) <> None.
Proof.
  intros Hd Hc. unfold headerRegex, delimited, lit_star. cbn [atoms].
  rewrite !match_here_one by reflexivity.
  pose proof (match_here_star_some Cls.dot
                [One (Cls.lit Cls.star); One (Cls.lit Cls.star);
                 Opt (Cls.lit Cls.colon); Star Cls.space; Eos]
                boldText (Cls.star :: Cls.star :: colon) Hd) as H.
  destruct (match_here _ (boldText ++ _)); [discriminate|].
  exfalso. apply H; [|reflexivity].
  destruct Hc as [->| ->]; discriminate.
Qed.

(** Property X4.  The standalone bold header (source lines 86 to 93): a trimmed line
    that is one bold span and nothing else, or that span and a colon, the
    bold text holding no line terminator and not beginning with a star,
    is a Header; the whole trimmed line goes to the tokenizer and the
    counter is not touched. *)
Theorem header_branch :
  forall index line elements c boldText colon,
    trim line = delimited boldText colon ->
    stops (Cls.lit Cls.star) boldText ->
    forallb Cls.dot boldText = true ->
    colon = [] \/ colon = [Cls.colon] ->
    exists children,
      processBoldAndCitations (delimited boldText colon) = Some children /\
      parse_line index line (elements, c)
      = Some (elements ++ [{| key := index; block := Header children |}], c).
Proof.
  intros index line elements c boldText colon Ht Hs Hd Hc.
  destruct (processBoldAndCitations_total (delimited boldText colon))
    as (children & Hch).
  exists children. split; [exact Hch|].
  destruct (two_stars_no_bullet (boldText ++ Cls.star :: Cls.star :: colon))
    as (Hn & Hb & Hp & Hnum & Hh).
  pose proof (header_match boldText colon Hd Hc) as Hm.
  unfold parse_line. rewrite Ht. unfold delimited in *. cbn [is_empty].
  assert (Hh' : match_here (atoms bulletHeaderRegex)
                  (Cls.star :: Cls.star :: boldText ++ Cls.star :: Cls.star :: colon)
                = None).
  { destruct boldText as [|c0 bt]; [|now apply Hh].
    destruct Hc as [->| ->]; reflexivity. }
  rewrite (matches_false _ bulletHeaderRegex eq_refl Hh').
  rewrite (matches_false _ nestedRegex eq_refl Hn).
  rewrite (matches_false _ bulletRegex eq_refl Hb).
  rewrite (matches_false _ plusRegex eq_refl Hp).
  rewrite (matches_false _ numberedRegex eq_refl Hnum).
  rewrite (matches_anchored _ headerRegex eq_refl).
  destruct (match_here (atoms headerRegex) _); [|congruence].
  now rewrite Hch.
Qed.

Lemma header_branch_witness :
  exists children,
    processBoldAndCitations (js "**Key Findings**:") = Some children /\
    parse_line 5 (js "  **Key Findings**:  ") ([], 2)
    = Some ([{| key := 5; block := Header children |}], 2).
Proof.
  apply (header_branch 5 (js "  **Key Findings**:  ") [] 2
           (js "Key Findings") [Cls.colon]); try reflexivity.
  right. reflexivity.
Defined.


(** * Numbering across the document *)

Lemma rendered_numbered i c lines es c' :
  rendered i c lines es c' -> numbered_from c (map block es).
Proof.
  induction 1 as [|i c line b c1 lines es c2 _ Hr _ _ IH]; simpl; [exact I|].
  destruct b; simpl in Hr; subst; auto.
  destruct Hr as [-> ->]. auto.
Qed.

(** Property X5.  Numbering of nested items over a whole document (source lines 19,
    35 and 46 to 50): in the document of every text the nested items
    after a BulletHeader, or after the start, are numbered 1, 2, 3 and so
    on, plain bullets, paragraphs, spacers and the other blocks between
    them neither counting nor starting the numbers again. *)
Theorem nested_items_count_up :
  forall text,
    exists r, parseMarkdown text = Some r /\ numbered_from 0 (document r).
Proof.
  intros text. destruct text as [|c0 text].
  { exists (Falsy []). split; [reflexivity|exact I]. }
  destruct (parseMarkdown_spec (c0 :: text)) as (es & c' & Hp & Hr);
    [discriminate|].
  exists (Div es). split; [exact Hp|].
  simpl. now apply rendered_numbered in Hr.
Qed.

(** * When the extractor returns an array *)

Lemma search_some re : forall pre rest i,
  match_here re rest <> None -> search re (pre ++ rest) i <> None.
Proof.
  induction pre as [|c pre IH]; intros rest i H.
  - destruct rest as [|c rest]; simpl;
      destruct (match_here re _); try discriminate; congruence.
  - cbn [app search]. destruct (match_here re (c :: pre ++ rest));
      [discriminate|]. now apply IH.
Qed.

Lemma exec_none_no_marker text :
  exec citationRegex text 0 = None -> no_marker text.
Proof.
  intros H pre number post Hn ->.
  unfold exec in H. cbn [anchored citationRegex Nat.leb skipn] in H.
  pose proof (search_some (atoms citationRegex) pre (marker number ++ post) 0) as Hs.
  change (atoms citationRegex) with
    [One (Cls.lit Cls.lbracket); Plus Cls.digit; One (Cls.lit Cls.rbracket)] in Hs.
  destruct (search _ (pre ++ marker number ++ post) 0) as [[i ps]|];
    [discriminate|].
  apply Hs; [|reflexivity].
  change [One (Cls.lit Cls.lbracket); Plus Cls.digit; One (Cls.lit Cls.rbracket)]
    with (atoms citationRegex).
  now rewrite citation_match.
Qed.

(** The loop only ever appends, and appends nothing only when it has
    not moved. *)
Lemma citations_loop_appends : forall fuel text keyOffset lastIndex parts r,
  citations_loop fuel text keyOffset lastIndex parts lastIndex = Some r ->
  exists tail, fst r = parts ++ tail /\ (tail = [] -> snd r = lastIndex).
Proof.
  induction fuel as [|fuel IH]; intros text keyOffset lastIndex parts r H;
    [discriminate|].
  rewrite citations_loop_S in H.
  destruct (exec citationRegex text lastIndex) as [m|].
  - cbv zeta in H. apply IH in H as (tail & -> & _).
    destruct (Nat.ltb lastIndex (index m)).
    + eexists. rewrite <- !app_assoc. split; [reflexivity|].
      intros E. apply app_eq_nil in E as [E _]. discriminate.
    + eexists. rewrite <- !app_assoc. split; [reflexivity|].
      intros E. apply app_eq_nil in E as [E _]. discriminate.
  - inversion H; subst. exists []. rewrite app_nil_r. auto.
Qed.

Lemma processCitations_no_marker text keyOffset :
  no_marker text -> processCitations text keyOffset = Some (Plain text).
Proof.
  intros Hn. unfold processCitations. rewrite citations_loop_S.
  rewrite exec_none; [|reflexivity|now apply no_marker_no_match].
  destruct text; reflexivity.
Qed.

Lemma processCitations_lone_marker number keyOffset :
  is_number number ->
  processCitations (marker number) keyOffset = Some (Plain (marker number)).
Proof.
  intros Hn.
  pose proof (citation_match number [] Hn) as Hm. rewrite app_nil_r in Hm.
  unfold processCitations. rewrite citations_loop_S.
  rewrite (exec_at_start citationRegex _ _ eq_refl Hm).
  cbv zeta. cbn [index mk_match].
  change (Nat.ltb 0 0) with false. cbv iota.
  change (get (mk_match citationRegex 0
                 [[Cls.lbracket]; number; [Cls.rbracket]]) 0)
    with (marker number).
  change (0 + length (marker number)) with (length (marker number)).
  change (length (marker number)) with (S (length (number ++ [Cls.rbracket]))) at 1.
  rewrite citations_loop_S.
  rewrite (exec_at_end citationRegex (marker number) eq_refl eq_refl).
  rewrite Nat.ltb_irrefl. reflexivity.
Qed.

(** The extractor hands the text back exactly when it holds no marker
    or is one marker alone. *)
Lemma plain_iff :
  forall text keyOffset,
    processCitations text keyOffset = Some (Plain text) <->
    (no_marker text \/ exists number, is_number number /\ text = marker number).
Proof.
  intros text keyOffset. split.
  - intros H. unfold processCitations in H. rewrite citations_loop_S in H.
    destruct (exec citationRegex text 0) as [m|] eqn:E;
      [right|left; now apply exec_none_no_marker].
    apply citations_step in E as (pre & number & rest & _ & E & Hn & Hi & H0 & H1).
    cbn [skipn] in E. exists number. split; [exact Hn|].
    cbv zeta in H. rewrite Hi, H0, H1 in H.
    match type of H with
    | (match ?l with Some _ => _ | None => _ end) = _ =>
        destruct l as [[parts' lastIndex']|] eqn:EL; [|discriminate]
    end.
    apply citations_loop_appends in EL as (tail & Hp & Hl).
    cbn [fst snd] in Hp, Hl.
    match type of H with
    | Some (if Nat.ltb 1 (length ?ps) then _ else _) = _ =>
        assert (Hlen : length ps <= 1);
          [destruct (Nat.ltb_spec 1 (length ps)) as [Hlt|Hge];
             [discriminate H|exact Hge]|]
    end.
    clear H.
    assert (Hlen' : length parts' <= 1).
    { destruct (Nat.ltb lastIndex' (length text));
        [rewrite length_app in Hlen; lia|exact Hlen]. }
    destruct pre as [|p0 pre].
    2:{ exfalso. subst parts'. cbn [length Nat.add Nat.ltb Nat.leb app] in Hlen'.
        lia. }
    cbn [length Nat.add app] in *.
    change (Nat.ltb 0 0) with false in Hp.
    destruct tail as [|t0 tail].
    2:{ exfalso. subst parts'. rewrite length_app in Hlen'. simpl in Hlen'. lia. }
    specialize (Hl eq_refl). subst lastIndex' parts'.
    destruct (Nat.ltb_spec (length (marker number)) (length text)) as [Hlt|Hge].
    { rewrite length_app in Hlen. simpl in Hlen. lia. }
    rewrite E, length_app in Hge.
    destruct rest as [|r0 rest]; [|simpl in Hge; lia].
    now rewrite app_nil_r in E.
  - intros [Hn|(number & Hn & ->)].
    + now apply processCitations_no_marker.
    + now apply processCitations_lone_marker.
Qed.

Lemma processCitations_cases text keyOffset c :
  processCitations text keyOffset = Some c ->
  c = Plain text \/ exists parts, c = Parts parts /\ 1 < length parts.
Proof.
  unfold processCitations.
  destruct (citations_loop (S (length text)) text keyOffset 0 [] 0)
    as [[parts lastIndex]|]; [|discriminate].
  match goal with |- context [Nat.ltb 1 (length ?ps)] => set (parts' := ps) end.
  destruct (Nat.ltb_spec 1 (length parts')) as [Hl|Hl];
    intros H; inversion H; subst; eauto.
Qed.

(** Property X7.  When citations are shown as badges (source lines 161
    to 186): the extractor returns for every text; it hands the text
    back as one plain string exactly when the text holds no citation
    marker or is one marker and nothing else; in every other case it
    returns the array of parts, two or more, each a string or the badge
    of a marker of the text, which spell the text out again. *)
Theorem citations_plain_iff :
  forall text keyOffset,
    exists c,
      processCitations text keyOffset = Some c /\
      (c = Plain text <->
       (no_marker text \/ exists number, is_number number /\ text = marker number)) /\
      (c = Plain text \/
       exists parts,
         c = Parts parts /\ 1 < length parts /\
         concat (map source_of parts) = text /\
         Forall (extracted_from text) parts).
Proof.
  intros text keyOffset.
  destruct (processCitations_total text keyOffset) as (c & Hc).
  exists c. split; [exact Hc|]. split.
  - split.
    + intros ->. now apply (proj1 (plain_iff text keyOffset)).
    + intros H. apply (proj2 (plain_iff text keyOffset)) in H.
      rewrite Hc in H. now inversion H.
  - destruct (processCitations_cases _ _ _ Hc) as [->|(parts & -> & Hl)];
      [now left|right].
    exists parts. split; [reflexivity|]. split; [exact Hl|].
    exact (processCitations_spec _ _ _ Hc).
Qed.

Lemma citations_plain_iff_witness :
  exists c,
    processCitations (js "[7]") 0 = Some c /\ c = Plain (js "[7]").
Proof.
  destruct (citations_plain_iff (js "[7]") 0) as (c & Hc & Hiff & _).
  exists c. split; [exact Hc|]. apply (proj2 Hiff).
  right. exists (js "7"). repeat split. discriminate.
Defined.

(** * The first bold span of a line *)

Lemma star_lazy_first {A : Type} p (k : str -> option A) r : forall w s,
  forallb p w = true ->
  k s = Some r ->
  (forall w1 w2, w = w1 ++ w2 -> w2 <> [] -> k (w2 ++ s) = None) ->
  star_lazy p k (w ++ s) = Some (w, r).
Proof.
  induction w as [|c w IH]; intros s Hw Hk Hf.
  - cbn [app]. destruct s; simpl; unfold skip; now rewrite Hk.
  - cbn [app]. simpl. unfold skip.
    pose proof (Hf [] (c :: w) eq_refl) as H0. cbn [app] in H0.
    rewrite H0 by discriminate. simpl.
    simpl in Hw. apply andb_prop in Hw as [-> Hw].
    rewrite IH; auto.
    intros w1 w2 -> Hne. apply (Hf (c :: w1) w2); auto.
Qed.

Lemma match_here_lazy_first p re w s ps :
  forallb p w = true ->
  match_here re s = Some ps ->
  (forall w1 w2, w = w1 ++ w2 -> w2 <> [] -> match_here re (w2 ++ s) = None) ->
  match_here (LazyStar p :: re) (w ++ s) = Some (w :: ps).
Proof.
  intros Hw Hk Hf. simpl.
  now rewrite (star_lazy_first p (match_here re) ps w s Hw Hk Hf).
Qed.

Lemma has_pair_suffix w1 w2 : has_pair (w1 ++ w2) = false -> has_pair w2 = false.
Proof.
  induction w1 as [|c w1 IH]; [auto|].
  cbn [app]. rewrite has_pair_eq. intros H.
  apply orb_false_elim in H as [_ H]. auto.
Qed.

Lemma closing_is_first boldText w1 w2 rest :
  has_pair (boldText ++ [Cls.star]) = false ->
  boldText = w1 ++ w2 -> w2 <> [] ->
  match_here [lit_star; lit_star; Opt (Cls.lit Cls.colon)]
             (w2 ++ Cls.star :: Cls.star :: rest) = None.
Proof.
  intros Hp -> Hne. rewrite <- app_assoc in Hp.
  apply has_pair_suffix in Hp.
  destruct w2 as [|c1 w2]; [congruence|].
  assert (Hc : exists c2 t t',
             w2 ++ [Cls.star] = c2 :: t /\
             w2 ++ Cls.star :: Cls.star :: rest = c2 :: t').
  { destruct w2 as [|c2 w2]; simpl; eauto. }
  destruct Hc as (c2 & t & t' & E1 & E2).
  cbn [app] in *. rewrite E1 in Hp. rewrite E2.
  rewrite has_pair_eq in Hp. apply orb_false_elim in Hp as [Hp _].
  unfold lit_star.
  destruct (Cls.lit Cls.star c1) eqn:H1; [|now rewrite match_here_one_fail].
  rewrite match_here_one by exact H1. simpl in Hp.
  now rewrite match_here_one_fail.
Qed.

Lemma bold_match_first boldText rest :
  forallb Cls.dot boldText = true ->
  has_pair (boldText ++ [Cls.star]) = false ->
  match_here (atoms boldRegex) (delimited boldText rest)
  = Some [[Cls.star]; [Cls.star]; boldText; [Cls.star]; [Cls.star];
          leading_colon rest].
Proof.
  intros Hd Hp. unfold boldRegex, delimited. cbn [atoms].
  unfold lit_star at 1 2. rewrite !match_here_one by reflexivity.
  assert (Hk : match_here [lit_star; lit_star; Opt (Cls.lit Cls.colon)]
                 (Cls.star :: Cls.star :: rest)
               = Some [[Cls.star]; [Cls.star]; leading_colon rest]).
  { unfold lit_star. rewrite !match_here_one by reflexivity.
    destruct rest as [|c rest]; simpl; [reflexivity|].
    destruct (Cls.lit Cls.colon c) eqn:Hc; [|reflexivity].
    apply lit_true in Hc. now subst. }
  rewrite (match_here_lazy_first Cls.dot _ boldText _ _ Hd Hk); [reflexivity|].
  intros w1 w2 E Hne. now apply (closing_is_first boldText w1 w2 rest).
Qed.

Lemma bold_loop_appends : forall fuel text lastIndex parts r,
  bold_loop fuel text lastIndex parts lastIndex = Some r ->
  exists tail, fst r = parts ++ tail.
Proof.
  induction fuel as [|fuel IH]; intros text lastIndex parts r H; [discriminate|].
  rewrite bold_loop_S in H.
  destruct (exec boldRegex text lastIndex) as [m|].
  - match type of H with
    | (match ?e with Some _ => _ | None => _ end) = _ =>
        destruct e as [parts1|] eqn:Eb; [|discriminate]
    end.
    cbv zeta in H. apply IH in H as (tail & ->).
    assert (Hp : exists t, parts1 = parts ++ t).
    { destruct (Nat.ltb lastIndex (index m)).
      - cbv zeta in Eb.
        destruct (processCitations _ _) as [cp|]; [|discriminate].
        inversion Eb; subst. destruct cp; simpl; eauto.
      - inversion Eb; subst. exists []. now rewrite app_nil_r. }
    destruct Hp as (t & ->). eexists. now rewrite <- !app_assoc.
  - inversion H; subst. exists []. now rewrite app_nil_r.
Qed.

(** Property X8.  The first bold span (source lines 113 to 137): when the content
    begins with two stars, then text that holds no line terminator and
    no pair of stars and does not end in a star, then two stars, the
    first part is the [<strong>] of exactly that text, its key 0; a
    colon that follows the closing stars directly goes into it; the
    parts after it spell out what is left of the content. *)
Theorem first_bold_span :
  forall boldText rest,
    forallb Cls.dot boldText = true ->
    has_pair (boldText ++ [Cls.star]) = false ->
    exists tail,
      processBoldAndCitations (delimited boldText rest)
      = Some (Parts (Strong 0 boldText (leading_colon rest) :: tail)) /\
      concat (map source_of tail) = skipn (length (leading_colon rest)) rest.
Proof.
  intros boldText rest Hd Hp.
  pose proof (bold_match_first boldText rest Hd Hp) as Hm.
  destruct (processBoldAndCitations_total (delimited boldText rest)) as (c & Hc).
  pose proof (processBoldAndCitations_source _ _ Hc) as Hsrc.
  assert (Hshape : exists tail, c = Parts (Strong 0 boldText (leading_colon rest) :: tail)).
  { revert Hc. unfold processBoldAndCitations. rewrite bold_loop_S.
    rewrite (exec_at_start boldRegex _ _ eq_refl Hm).
    cbn [index mk_match]. change (Nat.ltb 0 0) with false. cbv iota zeta.
    change (get (mk_match boldRegex 0 _) 1) with boldText.
    change (get (mk_match boldRegex 0 _) 2) with (leading_colon rest).
    cbn [app length].
    match goal with
    | |- (match ?l with Some _ => _ | None => _ end) = _ -> _ =>
        destruct l as [[parts lastIndex]|] eqn:EL; [|discriminate]
    end.
    apply bold_loop_appends in EL as (tail & EL). cbn [fst] in EL. subst parts.
    match goal with
    | |- (match ?e with Some _ => _ | None => _ end) = _ -> _ =>
        destruct e as [parts'|] eqn:Er; [|discriminate]
    end.
    assert (Hp' : exists t, parts' = [Strong 0 boldText (leading_colon rest)] ++ t).
    { destruct (Nat.ltb lastIndex _).
      - cbv zeta in Er. destruct (processCitations _ _) as [cp|]; [|discriminate].
        inversion Er; subst.
        destruct cp; cbn [push_children app]; eexists; reflexivity.
      - inversion Er; subst. eexists; reflexivity. }
    destruct Hp' as (t & ->). cbn [app length Nat.ltb Nat.leb].
    intros H; inversion H; subst. eauto. }
  destruct Hshape as (tail & ->). exists tail. split; [exact Hc|].
  cbn [children_source map concat source_of] in Hsrc.
  unfold delimited in Hsrc.
  assert (E : leading_colon rest ++ concat (map source_of tail) = rest).
  { cbn [app] in Hsrc. inversion Hsrc as [E0].
    rewrite <- app_assoc in E0. apply app_inv_head in E0.
    cbn [app] in E0. congruence. }
  rewrite <- E at 2. now rewrite skipn_prefix.
Qed.

Lemma first_bold_span_witness :
  exists tail,
    processBoldAndCitations (js "**Direct Answer**: Paris [1]")
    = Some (Parts (Strong 0 (js "Direct Answer") (js ":") :: tail)) /\
    concat (map source_of tail) = js " Paris [1]".
Proof.
  apply (first_bold_span (js "Direct Answer") (js ": Paris [1]")); reflexivity.
Defined.


(** * The keys of the parts *)

Lemma keyed_app a : forall i b,
  keyed i (a ++ b) <-> keyed i a /\ keyed (i + length a) b.
Proof.
  induction a as [|p a IH]; intros i b; simpl.
  - rewrite Nat.add_0_r. tauto.
  - rewrite IH. replace (S i + length a) with (i + S (length a)) by lia. tauto.
Qed.

Lemma badges_keyed_app offset a : forall j b,
  badges_keyed offset j (a ++ b)
  <-> badges_keyed offset j a /\ badges_keyed offset (j + length a) b.
Proof.
  induction a as [|p a IH]; intros j b; simpl.
  - rewrite Nat.add_0_r. tauto.
  - rewrite IH. replace (S j + length a) with (j + S (length a)) by lia. tauto.
Qed.

Lemma badges_keyed_keyed offset ps : forall j,
  badges_keyed offset j ps -> keyed (offset + j) ps.
Proof.
  induction ps as [|p ps IH]; intros j; simpl; [auto|].
  intros [Hp Hps]. split.
  - destruct p; simpl in *; auto; [contradiction|]. destruct Hp; subst; auto.
  - replace (S (offset + j)) with (offset + S j) by lia. auto.
Qed.

Lemma citations_loop_keys : forall fuel text keyOffset lastIndex parts r,
  citations_loop fuel text keyOffset lastIndex parts lastIndex = Some r ->
  badges_keyed keyOffset 0 parts ->
  badges_keyed keyOffset 0 (fst r).
Proof.
  induction fuel as [|fuel IH]; intros text keyOffset lastIndex parts r H Hk;
    [discriminate|].
  rewrite citations_loop_S in H.
  destruct (exec citationRegex text lastIndex) as [m|].
  - cbv zeta in H. apply IH in H; [exact H|].
    apply badges_keyed_app. split.
    + destruct (Nat.ltb lastIndex (index m)); [|exact Hk].
      apply badges_keyed_app. split; [exact Hk|simpl; auto].
    + simpl. auto.
  - inversion H; subst. exact Hk.
Qed.

Lemma processCitations_keys text keyOffset c :
  processCitations text keyOffset = Some c ->
  badges_keyed keyOffset 0 (parts_of c).
Proof.
  unfold processCitations.
  destruct (citations_loop (S (length text)) text keyOffset 0 [] 0)
    as [[parts lastIndex]|] eqn:E; [|discriminate].
  apply citations_loop_keys in E; [|exact I]. cbn [fst] in E.
  match goal with |- context [Nat.ltb 1 (length ?ps)] => set (parts' := ps) end.
  assert (Hk : badges_keyed keyOffset 0 parts').
  { subst parts'. destruct (Nat.ltb lastIndex (length text)); [|exact E].
    apply badges_keyed_app. split; [exact E|simpl; auto]. }
  destruct (Nat.ltb 1 (length parts')); intros H; inversion H; subst; simpl; auto.
Qed.

Lemma push_children_keyed parts text c :
  keyed 0 parts ->
  processCitations text (length parts) = Some c ->
  keyed 0 (push_children parts c).
Proof.
  intros Hk Hc. apply processCitations_keys in Hc.
  apply badges_keyed_keyed in Hc. rewrite Nat.add_0_r in Hc.
  destruct c; simpl in *; apply keyed_app; split; auto.
Qed.

Lemma before_bold_keyed parts parts' lastIndex i text :
  keyed 0 parts ->
  (if Nat.ltb lastIndex i then
     let beforeText := slice lastIndex i text in
     citationParts <- processCitations beforeText (length parts) ;;
     Some (push_children parts citationParts)
   else Some parts) = Some parts' ->
  keyed 0 parts'.
Proof.
  intros Hk. destruct (Nat.ltb lastIndex i).
  - cbv zeta. destruct (processCitations _ _) as [c|] eqn:E; [|discriminate].
    intros H; inversion H; subst. now apply (push_children_keyed _ _ _ Hk E).
  - intros H; inversion H; subst. exact Hk.
Qed.

Lemma bold_loop_keys : forall fuel text lastIndex parts r,
  bold_loop fuel text lastIndex parts lastIndex = Some r ->
  keyed 0 parts -> keyed 0 (fst r).
Proof.
  induction fuel as [|fuel IH]; intros text lastIndex parts r H Hk; [discriminate|].
  rewrite bold_loop_S in H.
  destruct (exec boldRegex text lastIndex) as [m|].
  - match type of H with
    | (match ?e with Some _ => _ | None => _ end) = _ =>
        destruct e as [parts1|] eqn:Eb; [|discriminate]
    end.
    apply before_bold_keyed in Eb; [|exact Hk].
    cbv zeta in H. apply IH in H; [exact H|].
    apply keyed_app. split; [exact Eb|]. simpl. auto.
  - inversion H; subst. exact Hk.
Qed.

Lemma processBoldAndCitations_keyed text c :
  processBoldAndCitations text = Some c -> keyed 0 (parts_of c).
Proof.
  unfold processBoldAndCitations.
  destruct (bold_loop (S (length text)) text 0 [] 0)
    as [[parts lastIndex]|] eqn:E; [|discriminate].
  apply bold_loop_keys in E; [|exact I]. cbn [fst] in E.
  match goal with
  | |- (match ?e with Some _ => _ | None => _ end) = _ -> _ =>
      destruct e as [parts'|] eqn:Er; [|discriminate]
  end.
  assert (Hk : keyed 0 parts').
  { destruct (Nat.ltb lastIndex (length text)).
    - cbv zeta in Er. destruct (processCitations _ _) as [cp|] eqn:Ec; [|discriminate].
      inversion Er; subst. now apply (push_children_keyed _ _ _ E Ec).
    - inversion Er; subst. exact E. }
  destruct (Nat.ltb 0 (length parts')); intros H; inversion H; subst; simpl; auto.
Qed.

Lemma keyed_positions ps : forall i k,
  keyed i ps -> In k (keys ps) -> i <= key_position k.
Proof.
  induction ps as [|p ps IH]; intros i k; simpl; [tauto|].
  intros [Hp Hps] Hin. apply in_app_or in Hin as [Hin|Hin].
  - destruct p; simpl in *; try tauto;
      destruct Hin as [<-|[]]; simpl; lia.
  - specialize (IH (S i) k Hps Hin). lia.
Qed.

Lemma keyed_NoDup ps : forall i, keyed i ps -> NoDup (keys ps).
Proof.
  induction ps as [|p ps IH]; intros i; simpl; [constructor|].
  intros [Hp Hps]. specialize (IH _ Hps).
  destruct p; simpl in *; auto; constructor; auto; intros Hin;
    apply (keyed_positions _ _ _ Hps) in Hin; simpl in Hin; lia.
Qed.

Lemma keyed_nth ps : forall i j p,
  keyed i ps -> nth_error ps j = Some p -> key_at (i + j) p.
Proof.
  induction ps as [|q ps IH]; intros i j p Hk Hj; [destruct j; discriminate|].
  destruct Hk as [Hq Hps]. destruct j as [|j]; simpl in Hj.
  - inversion Hj; subst. now rewrite Nat.add_0_r.
  - replace (i + S j) with (S i + j) by lia. eauto.
Qed.

(** Property X10.  The keys of the parts of a line (source lines 120, 132, 143 and
    170): the tokenizer returns for every content, a [<strong>] at
    position [i] of its parts has key [bold-i], a badge at position [i]
    a key [citation-o-n] with [o + n = i], and so no two keyed parts of
    a line have the same key. *)
Theorem part_keys_distinct :
  forall text,
    exists c,
      processBoldAndCitations text = Some c /\
      NoDup (keys (parts_of c)) /\
      (forall i k boldText colon,
          nth_error (parts_of c) i = Some (Strong k boldText colon) -> k = i) /\
      (forall i offset k number,
          nth_error (parts_of c) i = Some (Badge offset k number) ->
          offset + k = i).
Proof.
  intros text. destruct (processBoldAndCitations_total text) as (c & Hc).
  exists c. pose proof (processBoldAndCitations_keyed _ _ Hc) as Hk.
  split; [exact Hc|]. split; [now apply (keyed_NoDup _ 0)|].
  split; intros; exact (keyed_nth _ 0 _ _ Hk H).
Qed.

(** * Text without any markup *)

Lemma no_pair_not_closed s : has_pair s = false -> closed_pair s = false.
Proof.
  induction s as [|a t IH]; [reflexivity|].
  rewrite has_pair_eq, closed_pair_eq. intros H.
  apply orb_false_elim in H as [H1 H2]. rewrite (IH H2).
  destruct t as [|b u]; [reflexivity|]. now rewrite H1.
Qed.

(** Property X11.  Plain content (source lines 116, 141 to 151 and 161, 182 to 186): a
    content string that is not empty and holds neither a pair of stars
    nor a citation marker comes back from the tokenizer as the array of
    that one string, with no empty fragment beside it. *)
Theorem plain_content_is_one_string :
  forall text,
    is_empty text = false ->
    has_pair text = false ->
    no_marker text ->
    processBoldAndCitations text = Some (Parts [Str text]).
Proof.
  intros text Hne Hp Hn.
  unfold processBoldAndCitations. rewrite bold_loop_S.
  rewrite exec_none;
    [|reflexivity|apply unclosed_no_match; now apply no_pair_not_closed].
  destruct text as [|c0 text]; [discriminate|].
  cbn [length Nat.ltb Nat.leb]. cbv zeta. unfold slice_from. cbn [skipn length].
  now rewrite (processCitations_no_marker _ 0 Hn).
Qed.

Lemma plain_content_is_one_string_witness :
  processBoldAndCitations (js "No markers here [sic] * at all.")
  = Some (Parts [Str (js "No markers here [sic] * at all.")]).
Proof.
  apply plain_content_is_one_string; try reflexivity.
  apply has_marker_false. reflexivity.
Defined.

(** * What [trim] leaves *)

Lemma dropWhile_stops p s : stops p (dropWhile p s).
Proof.
  induction s as [|c s IH]; simpl; [exact I|].
  destruct (p c) eqn:Hc; [exact IH|exact Hc].
Qed.

Lemma dropWhile_id p s : stops p s -> dropWhile p s = s.
Proof. destruct s as [|c s]; simpl; [reflexivity|]. now intros ->. Qed.

Lemma dropWhile_nil p s : dropWhile p s = [] -> forallb p s = true.
Proof.
  induction s as [|c s IH]; simpl; [reflexivity|].
  destruct (p c); [exact IH|discriminate].
Qed.

Lemma dropWhile_suffix p s : exists w, s = w ++ dropWhile p s.
Proof.
  exists (takeWhile p s). symmetry. apply takeWhile_dropWhile.
Qed.

Lemma forallb_rev (p : char -> bool) s : forallb p (rev s) = forallb p s.
Proof.
  induction s as [|c s IH]; [reflexivity|].
  simpl. rewrite forallb_app, IH. simpl. rewrite andb_true_r. apply andb_comm.
Qed.

Lemma trim_no_trailing s : stops Cls.space (rev (trim s)).
Proof. unfold trim. rewrite rev_involutive. apply dropWhile_stops. Qed.

Lemma trim_no_leading s : stops Cls.space (trim s).
Proof.
  unfold trim. set (d := dropWhile Cls.space s).
  pose proof (dropWhile_stops Cls.space s) as Hd. fold d in Hd.
  destruct (dropWhile_suffix Cls.space (rev d)) as (w & E).
  apply (f_equal (@rev char)) in E. rewrite rev_involutive, rev_app_distr in E.
  destruct (rev (dropWhile Cls.space (rev d))) as [|c r]; [exact I|].
  rewrite E in Hd. exact Hd.
Qed.

Lemma trim_idempotent s : trim (trim s) = trim s.
Proof.
  pose proof (trim_no_leading s) as Hl. pose proof (trim_no_trailing s) as Ht.
  unfold trim at 1. rewrite (dropWhile_id _ _ Hl), (dropWhile_id _ _ Ht).
  apply rev_involutive.
Qed.

Lemma trim_nil s : trim s = [] -> forallb Cls.space s = true.
Proof.
  unfold trim. intros H.
  apply (f_equal (@rev char)) in H. rewrite rev_involutive in H. simpl in H.
  apply dropWhile_nil in H. rewrite forallb_rev in H.
  pose proof (dropWhile_stops Cls.space s) as Hs.
  destruct (dropWhile Cls.space s) as [|c d] eqn:E.
  - now apply dropWhile_nil.
  - simpl in H, Hs. rewrite Hs in H. discriminate.
Qed.

(** * Sending a message *)

(** Property X12.  [handleSubmit] (source lines 207 to 213): a message goes out exactly
    when the input is not blank and nothing is loading; what goes out is
    the trimmed input, which is not empty, neither begins nor ends with
    white space and is left as it is by another [trim]; the input is
    then cleared.  Otherwise nothing goes out and the input stays, and
    either a request is loading or the input is white space only. *)
Theorem handleSubmit_sends_trimmed :
  forall input isLoading,
    match handleSubmit input isLoading with
    | (Some message, input') =>
        isLoading = false /\ message = trim input /\ message <> [] /\
        stops Cls.space message /\ stops Cls.space (rev message) /\
        trim message = message /\ input' = []
    | (None, input') =>
        input' = input /\
        (isLoading = true \/ forallb Cls.space input = true)
    end.
Proof.
  intros input isLoading. unfold handleSubmit.
  destruct (is_empty (trim input)) eqn:He; simpl.
  - split; [reflexivity|]. right. apply trim_nil. now apply is_empty_true.
  - destruct isLoading; simpl; [auto|].
    repeat split.
    + intros E. apply is_empty_true in E. congruence.
    + apply trim_no_leading.
    + apply trim_no_trailing.
    + apply trim_idempotent.
Qed.

(** * Showing a message *)



(** Property X14.  The card of a source (source lines 255 to 278): the file name shown
    is never empty and the excerpt neither, the chunk label is never the
    number 0 (a chunk index of 0 is passed over like a missing one), and
    the excerpt has at most 200 code units, the first 200 of the text
    when there is one. *)
Theorem source_card_fallbacks :
  forall source,
    card_filename (source_card source) <> [] /\
    card_page (source_card source) <> inl 0%N /\
    card_excerpt (source_card source) <> [] /\
    length (card_excerpt (source_card source)) <= 200 /\
    (forall text, src_text source = Some text -> is_empty text = false ->
                  card_excerpt (source_card source) = firstn 200 text).
Proof.
  intros [md fname page text]. unfold source_card. cbn [src_metadata src_filename
    src_page src_text card_filename card_page card_excerpt].
  repeat split.
  - destruct md as [[[[|c s]|] ci]|]; simpl;
      try discriminate; destruct fname as [[|c' s']|]; discriminate.
  - destruct md as [[f [ci|]]|]; simpl;
      try (destruct (N.eqb_spec ci 0); [|congruence]);
      destruct page as [pg|]; simpl;
      try (destruct (N.eqb_spec pg 0)); congruence.
  - destruct text as [t|]; simpl; [|discriminate].
    unfold slice. cbn [skipn]. destruct (firstn (200 - 0) t); discriminate.
  - destruct text as [t|]; simpl; [|lia].
    unfold slice. cbn [skipn].
    destruct (firstn (200 - 0) t) eqn:E; [simpl; lia|].
    rewrite <- E. rewrite length_firstn. lia.
  - intros t Ht Hne. inversion Ht; subst. simpl. unfold slice. cbn [skipn].
    change (200 - 0) with 200.
    destruct t as [|c0 t]; [discriminate|]. reflexivity.
Qed.

Lemma source_card_fallbacks_witness :
  card_excerpt
    (source_card {| src_metadata :=
                      Some {| md_filename := Some (js "a.pdf");
                              md_chunk_index := Some 0%N |};
                    src_filename := None;
                    src_page := None;
                    src_text := Some (js "Paris is the capital.") |})
  = firstn 200 (js "Paris is the capital.").
Proof.
  apply (proj2 (proj2 (proj2 (proj2 (source_card_fallbacks _)))));
    reflexivity.
Defined.

(** * The title of a chat *)

Lemma join_cons sep w ws :
  join sep (w :: ws) = w ++ concat (map (cons sep) ws).
Proof.
  revert w. induction ws as [|w' ws IH]; intros w.
  - simpl. now rewrite app_nil_r.
  - change (join sep (w :: w' :: ws)) with (w ++ sep :: join sep (w' :: ws)).
    rewrite IH. reflexivity.
Qed.

Lemma or_else_some x b : x <> [] -> or_else (Some x) b = x.
Proof. destruct x; [congruence|reflexivity]. Qed.

(** Once the title is not empty the loop appends whole words, a blank
    before each, and stays within 40 code units. *)
Lemma title_loop_spec : forall words title,
  title <> [] -> length title <= 40 ->
  exists k,
    title_loop words title = title ++ concat (map (cons blank) (firstn k words)) /\
    length (title_loop words title) <= 40.
Proof.
  induction words as [|word rest IH]; intros title Hne Hl.
  - exists 0. simpl. now rewrite app_nil_r.
  - cbn [title_loop].
    destruct (Nat.ltb_spec 40 (length (title ++ blank :: word))) as [Hlt|Hge].
    + exists 0. simpl. now rewrite app_nil_r.
    + destruct title as [|t0 title]; [congruence|]. cbn [is_empty].
      destruct (IH ((t0 :: title) ++ [blank] ++ word)) as (k & E & Hk).
      * discriminate.
      * exact Hge.
      * exists (S k). rewrite E. split; [|now rewrite <- E].
        cbn [firstn map concat]. now rewrite <- !app_assoc.
Qed.

(** The title of a message longer than 50 code units once trimmed. *)
Lemma long_title message :
  50 < length (trim message) ->
  exists pre post,
    trim message = pre ++ post /\
    generateTitleFromMessage message = pre ++ js "..." /\
    length pre <= 40 /\
    (pre = [] \/ exists post', post = blank :: post').
Proof.
  intros Hlong. unfold generateTitleFromMessage.
  destruct (Nat.leb_spec (length (trim message)) 50) as [Hle|_]; [lia|].
  cbv zeta.
  pose proof (trim_no_leading message) as Hs.
  pose proof (join_split blank (trim message)) as Hj.
  destruct (trim message) as [|c0 clean] eqn:Ec; [simpl in Hlong; lia|].
  simpl in Hs.
  assert (Hc0 : N.eqb c0 blank = false).
  { destruct (N.eqb_spec c0 blank) as [->|]; [discriminate Hs|reflexivity]. }
  assert (Hw : exists w ws, split blank (c0 :: clean) = (c0 :: w) :: ws).
  { cbn [split]. rewrite Hc0.
    destruct (split blank clean) as [|l ls]; eauto. }
  destruct Hw as (w & ws & Hw). rewrite Hw in *. rewrite join_cons in Hj.
  cbn [title_loop app].
  destruct (Nat.ltb_spec 40 (length (blank :: c0 :: w))) as [Hlt|Hge].
  - exists [], (c0 :: clean). cbn [length app].
    split; [reflexivity|]. split; [reflexivity|]. split; [lia|now left].
  - cbn [is_empty app].
    destruct (title_loop_spec ws (c0 :: w)) as (k & E & Hk);
      [discriminate|simpl in Hge; simpl; lia|].
    set (title := title_loop ws (c0 :: w)) in *.
    exists title, (concat (map (cons blank) (skipn k ws))).
    destruct (Nat.ltb_spec (length title) (length (c0 :: clean))) as [_|Hbad];
      [|lia].
    assert (Hsplit : c0 :: clean
                     = title ++ concat (map (cons blank) (skipn k ws))).
    { rewrite E, <- app_assoc, <- concat_app, <- map_app, firstn_skipn.
      now rewrite Hj. }
    split; [exact Hsplit|]. split.
    + apply or_else_some. destruct title; discriminate.
    + split; [exact Hk|]. right.
      destruct (skipn k ws) as [|w' ws'] eqn:Esk.
      * exfalso. simpl in Hsplit. rewrite app_nil_r in Hsplit.
        rewrite Hsplit in Hlong. lia.
      * simpl. eauto.
Qed.

(** Property X15.  [generateTitleFromMessage], its bound (source lines 200 to 225): a
    title never has more than 50 code units, whatever the message. *)
Theorem title_length_bound :
  forall message, length (generateTitleFromMessage message) <= 50.
Proof.
  intros message.
  destruct (Nat.leb_spec (length (trim message)) 50) as [Hle|Hlt].
  - unfold generateTitleFromMessage.
    apply Nat.leb_le in Hle as Hb. now rewrite Hb.
  - destruct (long_title message Hlt) as (pre & post & _ & -> & Hl & _).
    rewrite length_app. simpl. lia.
Qed.



(** Property X17.  The fallback title (source line 224): [New Chat] is returned only
    for a message that is [New Chat] itself once trimmed, so the
    fallback is never what decides the title; a message of white space
    only gets the empty title. *)
Theorem title_fallback_unused :
  forall message,
    (generateTitleFromMessage message = js "New Chat" ->
     trim message = js "New Chat") /\
    (forallb Cls.space message = true ->
     generateTitleFromMessage message = []).
Proof.
  intros message. split.
  - intros H.
    destruct (Nat.leb_spec (length (trim message)) 50) as [Hle|Hlt].
    + unfold generateTitleFromMessage in H.
      apply Nat.leb_le in Hle. now rewrite Hle in H.
    + exfalso. destruct (long_title message Hlt) as (pre & post & _ & E & _ & _).
      rewrite E in H.
      destruct pre as [|? [|? [|? [|? [|? [|? [|? [|? [|? ?]]]]]]]]];
        cbv in H; discriminate.
  - intros Hb. unfold generateTitleFromMessage.
    now rewrite (trim_blank _ Hb).
Qed.

Lemma title_fallback_unused_witness :
  generateTitleFromMessage [32%N; 9%N; 32%N] = [].
Proof.
  apply (proj2 (title_fallback_unused [32%N; 9%N; 32%N])). reflexivity.
Defined.

(** Property X18.  From the form to the title (source lines 207 to 213 of the
    component, 152 and 200 to 225 of the page): whatever [handleSubmit]
    sends gets a title that is not empty, the message itself when it
    has at most 50 code units. *)
Theorem title_of_sent_message :
  forall input message input',
    handleSubmit input false = (Some message, input') ->
    generateTitleFromMessage message <> [] /\
    (length message <= 50 -> generateTitleFromMessage message = message).
Proof.
  intros input message input' H. unfold handleSubmit in H.
  destruct (is_empty (trim input)) eqn:He; simpl in H; [discriminate|].
  inversion H; subst. clear H.
  assert (Hne : trim input <> []).
  { intros E. apply is_empty_true in E. congruence. }
  destruct (Nat.leb_spec (length (trim input)) 50) as [Hle|Hlt].
  - assert (E : generateTitleFromMessage (trim input) = trim input).
    { unfold generateTitleFromMessage. rewrite trim_idempotent.
      apply Nat.leb_le in Hle. now rewrite Hle. }
    rewrite E. auto.
  - split; [|lia].
    destruct (long_title (trim input)) as (pre & post & _ & -> & _ & _).
    + now rewrite trim_idempotent.
    + destruct pre; discriminate.
Qed.

Lemma title_of_sent_message_witness :
  generateTitleFromMessage (js "Summarise chapter 2") <> [] /\
  (length (js "Summarise chapter 2") <= 50 ->
   generateTitleFromMessage (js "Summarise chapter 2") = js "Summarise chapter 2").
Proof.
  apply (title_of_sent_message (js "  Summarise chapter 2 ")
           (js "Summarise chapter 2") []).
  reflexivity.
Defined.

(** * The name in the greeting *)

Lemma split_first sep l :
  forallb (fun c => negb (N.eqb c sep)) l = true ->
  (forall r, hd [] (split sep (l ++ sep :: r)) = l) /\
  hd [] (split sep l) = l.
Proof.
  induction l as [|c l IH]; intros H.
  - split; [intros r|reflexivity]. cbn [app split]. now rewrite N.eqb_refl.
  - simpl in H. apply andb_prop in H as [Hc Hl].
    apply negb_true_iff in Hc. destruct (IH Hl) as (IH1 & IH2).
    split; [intros r; specialize (IH1 r)|]; cbn [app split]; rewrite Hc.
    + destruct (split sep (l ++ sep :: r)) eqn:E; rewrite ?E in *;
        simpl in *; now subst.
    + destruct (split sep l) eqn:E; rewrite ?E in *; simpl in *; now subst.
Qed.

(** Property X19.  [getUsernameFromEmail] (source lines 21 to 29 of the page): the name
    is made from what stands before the first at sign alone; whatever
    follows it, further at signs included, changes nothing. *)
Theorem username_ignores_domain :
  forall (toUpperCase : str -> str) local domain,
    forallb (fun c => negb (N.eqb c 64)) local = true ->
    getUsernameFromEmail toUpperCase (local ++ 64%N :: domain)
    = getUsernameFromEmail toUpperCase local.
Proof.
  intros toUpperCase local domain H. unfold getUsernameFromEmail.
  destruct (split_first 64%N local H) as (H1 & H2).
  now rewrite H1, H2.
Qed.

Lemma username_ignores_domain_witness :
  getUsernameFromEmail (fun s => s) (js "ada.lovelace@example.org@x")
  = getUsernameFromEmail (fun s => s) (js "ada.lovelace").
Proof.
  apply (username_ignores_domain (fun s => s) (js "ada.lovelace")
           (js "example.org@x")).
  reflexivity.
Defined.


(** * What a line keeps of its text *)

Lemma replace_empty_suffix s r :
  anchored r = true -> exists pre, s = pre ++ replace_empty s r.
Proof.
  intros Ha. unfold replace_empty, str_match, exec. rewrite Ha. simpl.
  destruct (match_here (atoms r) s) as [ps|] eqn:E; simpl.
  - destruct (match_here_prefix _ _ _ E) as (rest & Hs).
    exists (concat ps). rewrite Hs at 2. now rewrite skipn_prefix.
  - now exists [].
Qed.

Lemma takeWhile_all p s : forallb p (takeWhile p s) = true.
Proof.
  induction s as [|c s IH]; simpl; [reflexivity|].
  destruct (p c) eqn:Hc; simpl; [now rewrite Hc|reflexivity].
Qed.

Lemma matched s r :
  anchored r = true -> matches s r = true ->
  exists ps, match_here (atoms r) s = Some ps.
Proof.
  intros Ha H. rewrite matches_anchored in H by exact Ha.
  destruct (match_here (atoms r) s); [eauto|discriminate].
Qed.

(** What each prefix pattern removes, given the pattern of its branch
    matched: [lead] is the marker with the white space around it, the
    rest is the content. *)
Lemma bullet_prefix_removed m s :
  Cls.bullet m = true ->
  replace_empty (m :: s) bulletPrefixRegex = dropWhile Cls.space s.
Proof.
  intros Hm.
  assert (Hp : match_here (atoms bulletPrefixRegex) (m :: s)
               = Some [[m]; takeWhile Cls.space s]).
  { unfold bulletPrefixRegex. cbn [atoms].
    rewrite match_here_one by exact Hm. now rewrite match_here_star_end. }
  rewrite (replace_anchored _ bulletPrefixRegex _ eq_refl Hp).
  apply skipn_pieces. simpl. now rewrite app_nil_r, takeWhile_dropWhile.
Qed.

Lemma header_lead t :
  matches t bulletHeaderRegex = true ->
  exists m ws,
    Cls.bullet m = true /\ forallb Cls.space ws = true /\
    stops Cls.space (replace_empty t bulletPrefixRegex) /\
    t = m :: ws ++ replace_empty t bulletPrefixRegex.
Proof.
  intros H. apply matched in H as (ps & H); [|reflexivity].
  unfold bulletHeaderRegex in H. cbn [atoms] in H.
  apply match_here_cons in H as (w1 & ps1 & s1 & _ & -> & (m & -> & Hm) & _).
  cbn [app]. rewrite (bullet_prefix_removed m s1 Hm).
  exists m, (takeWhile Cls.space s1).
  split; [exact Hm|]. split; [apply takeWhile_all|].
  split; [apply dropWhile_stops|]. now rewrite takeWhile_dropWhile.
Qed.

Lemma bullet_lead t :
  matches t bulletRegex = true ->
  exists m ws,
    Cls.bullet m = true /\ ws <> [] /\ forallb Cls.space ws = true /\
    stops Cls.space (replace_empty t bulletPrefixRegex) /\
    t = m :: ws ++ replace_empty t bulletPrefixRegex.
Proof.
  intros H. apply matched in H as (ps & H); [|reflexivity].
  unfold bulletRegex in H. cbn [atoms] in H.
  apply match_here_cons in H as (w1 & ps1 & s1 & _ & -> & (m & -> & Hm) & H).
  apply match_here_cons in H as (w2 & ps2 & s2 & _ & -> & (w & -> & Hw) & _).
  cbn [app]. rewrite (bullet_prefix_removed m (w :: s2) Hm).
  exists m, (takeWhile Cls.space (w :: s2)).
  split; [exact Hm|]. split; [simpl; rewrite Hw; discriminate|].
  split; [apply takeWhile_all|].
  split; [apply dropWhile_stops|]. now rewrite takeWhile_dropWhile.
Qed.

Lemma nested_lead t :
  matches t nestedRegex = true ->
  exists m1 ws1 m2 ws2,
    Cls.bullet m1 = true /\ ws1 <> [] /\ forallb Cls.space ws1 = true /\
    Cls.bullet m2 = true /\ forallb Cls.space ws2 = true /\
    stops Cls.space (replace_empty t nestedPrefixRegex) /\
    t = m1 :: ws1 ++ m2 :: ws2 ++ replace_empty t nestedPrefixRegex.
Proof.
  intros H. apply matched in H as (ps & H); [|reflexivity].
  unfold nestedRegex in H. cbn [atoms] in H.
  apply match_here_cons in H as (w1 & ps1 & s1 & _ & -> & (m1 & -> & Hm1) & H).
  apply match_here_cons in H as (ws1 & ps2 & s2 & _ & -> & (Hne & Hws) & H).
  apply match_here_cons in H as (w3 & ps3 & s3 & _ & -> & (m2 & -> & Hm2) & _).
  cbn [app].
  destruct (nested_match m1 ws1 m2 s3 Hm1 Hne Hws Hm2) as (_ & Hp).
  rewrite (replace_anchored _ nestedPrefixRegex _ eq_refl Hp).
  rewrite (skipn_pieces _ _ (dropWhile Cls.space s3)).
  - exists m1, ws1, m2, (takeWhile Cls.space s3).
    repeat (split; [first [assumption | apply takeWhile_all | apply dropWhile_stops]|]).
    now rewrite takeWhile_dropWhile.
  - simpl. rewrite app_nil_r, <- !app_assoc. simpl.
    now rewrite takeWhile_dropWhile.
Qed.

Lemma plus_lead t :
  matches t plusRegex = true ->
  exists ws,
    ws <> [] /\ forallb Cls.space ws = true /\
    stops Cls.space (replace_empty t plusPrefixRegex) /\
    t = Cls.plus :: ws ++ replace_empty t plusPrefixRegex.
Proof.
  intros H. apply matched in H as (ps & H); [|reflexivity].
  unfold plusRegex in H. cbn [atoms] in H.
  apply match_here_cons in H as (w1 & ps1 & s1 & _ & -> & (m & -> & Hm) & H).
  apply match_here_cons in H as (w2 & ps2 & s2 & _ & -> & (w & -> & Hw) & _).
  apply lit_true in Hm. subst m. cbn [app].
  assert (Hp : match_here (atoms plusPrefixRegex) (Cls.plus :: w :: s2)
               = Some [[Cls.plus]; takeWhile Cls.space (w :: s2)]).
  { unfold plusPrefixRegex. cbn [atoms].
    rewrite match_here_one by reflexivity. now rewrite match_here_star_end. }
  rewrite (replace_anchored _ plusPrefixRegex _ eq_refl Hp).
  rewrite (skipn_pieces _ _ (dropWhile Cls.space (w :: s2))).
  - exists (takeWhile Cls.space (w :: s2)).
    split; [simpl; rewrite Hw; discriminate|]. split; [apply takeWhile_all|].
    split; [apply dropWhile_stops|]. now rewrite takeWhile_dropWhile.
  - cbn [concat app]. now rewrite app_nil_r, takeWhile_dropWhile.
Qed.

Lemma numbered_lead t :
  matches t numberedRegex = true ->
  exists number ws,
    is_number number /\ ws <> [] /\ forallb Cls.space ws = true /\
    stops Cls.space (replace_empty t numberedPrefixRegex) /\
    t = number ++ Cls.period :: ws ++ replace_empty t numberedPrefixRegex /\
    match str_match t numberRegex with
    | Some m => if is_empty (get m 1) then js "1" else get m 1
    | None => js "1"
    end = number.
Proof.
  intros H. apply matched in H as (ps & H); [|reflexivity].
  unfold numberedRegex in H. cbn [atoms] in H.
  apply match_here_cons in H as (ds & ps1 & s1 & _ & -> & (Hne & Hd) & H).
  apply match_here_cons in H as (w2 & ps2 & s2 & _ & -> & (c2 & -> & Hc2) & H).
  apply match_here_cons in H as (w3 & ps3 & s3 & _ & -> & (w & -> & Hw) & _).
  apply lit_true in Hc2. subst c2. cbn [app].
  assert (Hstop : stops Cls.digit (Cls.period :: w :: s3)) by reflexivity.
  assert (Hp : match_here (atoms numberedPrefixRegex) (ds ++ Cls.period :: w :: s3)
               = Some [ds; [Cls.period]; takeWhile Cls.space (w :: s3)]).
  { unfold numberedPrefixRegex. cbn [atoms].
    apply match_here_plus_stop; auto.
    rewrite match_here_one by reflexivity. now rewrite match_here_star_end. }
  assert (Hn : match_here (atoms numberRegex) (ds ++ Cls.period :: w :: s3)
               = Some [ds; [Cls.period]]).
  { unfold numberRegex. cbn [atoms]. apply match_here_plus_stop; auto. }
  rewrite (replace_anchored _ numberedPrefixRegex _ eq_refl Hp).
  rewrite (str_match_anchored _ numberRegex _ eq_refl Hn).
  change (get (mk_match numberRegex 0 [ds; [Cls.period]]) 1) with ds.
  rewrite (skipn_pieces _ _ (dropWhile Cls.space (w :: s3))).
  - exists ds, (takeWhile Cls.space (w :: s3)).
    split; [split; assumption|].
    split; [simpl; rewrite Hw; discriminate|]. split; [apply takeWhile_all|].
    split; [apply dropWhile_stops|].
    split; [now rewrite takeWhile_dropWhile|].
    destruct ds; [congruence|reflexivity].
  - cbn [concat app]. rewrite app_nil_r, <- app_assoc. cbn [app].
    now rewrite takeWhile_dropWhile.
Qed.

(** Property X6.  The text of a line (source lines 23 to 101): whatever
    the line, the parts of the element built for it spell out the
    trimmed line without exactly what the pattern of its branch takes
    off the front: a bullet marker and the white space after it for a
    BulletHeader and a BulletItem, the two markers and the white space
    after each for a nested item, the plus sign and the white space
    after it, the digits (which are the label), the period and the white
    space after it; what is shown begins with no white space.  A Header
    and a Paragraph show the whole trimmed line; a Spacer is built for a
    blank line only. *)
Theorem line_text_is_kept :
  forall index line elements c,
    exists b c',
      parse_line index line (elements, c)
      = Some (elements ++ [{| key := index; block := b |}], c') /\
      match b with
      | Spacer => trim line = []
      | Header ch | Paragraph ch => children_source ch = trim line
      | BulletHeader ch =>
          exists m ws,
            Cls.bullet m = true /\ forallb Cls.space ws = true /\
            stops Cls.space (children_source ch) /\
            trim line = m :: ws ++ children_source ch
      | BulletItem ch =>
          exists m ws,
            Cls.bullet m = true /\ ws <> [] /\ forallb Cls.space ws = true /\
            stops Cls.space (children_source ch) /\
            trim line = m :: ws ++ children_source ch
      | NestedNumberedItem _ ch =>
          exists m1 ws1 m2 ws2,
            Cls.bullet m1 = true /\ ws1 <> [] /\ forallb Cls.space ws1 = true /\
            Cls.bullet m2 = true /\ forallb Cls.space ws2 = true /\
            stops Cls.space (children_source ch) /\
            trim line = m1 :: ws1 ++ m2 :: ws2 ++ children_source ch
      | PlusBulletItem ch =>
          exists ws,
            ws <> [] /\ forallb Cls.space ws = true /\
            stops Cls.space (children_source ch) /\
            trim line = Cls.plus :: ws ++ children_source ch
      | NumberedItem number ch =>
          exists ws,
            is_number number /\ ws <> [] /\ forallb Cls.space ws = true /\
            stops Cls.space (children_source ch) /\
            trim line = number ++ Cls.period :: ws ++ children_source ch
      end.
Proof.
  intros index line elements c. unfold parse_line.
  destruct (is_empty (trim line)) eqn:He.
  { exists Spacer, c. split; [reflexivity|]. now apply is_empty_true. }
  destruct (matches (trim line) bulletHeaderRegex) eqn:H1.
  { destruct (processBoldAndCitations_total
                (replace_empty (trim line) bulletPrefixRegex)) as (ch & Hc).
    rewrite Hc. apply processBoldAndCitations_source in Hc.
    eexists _, _. split; [reflexivity|]. cbn beta iota. rewrite Hc.
    now apply header_lead. }
  destruct (matches (trim line) nestedRegex) eqn:H2.
  { destruct (processBoldAndCitations_total
                (replace_empty (trim line) nestedPrefixRegex)) as (ch & Hc).
    rewrite Hc. apply processBoldAndCitations_source in Hc.
    eexists _, _. split; [reflexivity|]. cbn beta iota. rewrite Hc.
    now apply nested_lead. }
  destruct (matches (trim line) bulletRegex) eqn:H3.
  { destruct (processBoldAndCitations_total
                (replace_empty (trim line) bulletPrefixRegex)) as (ch & Hc).
    rewrite Hc. apply processBoldAndCitations_source in Hc.
    eexists _, _. split; [reflexivity|]. cbn beta iota. rewrite Hc.
    now apply bullet_lead. }
  destruct (matches (trim line) plusRegex) eqn:H4.
  { destruct (processBoldAndCitations_total
                (replace_empty (trim line) plusPrefixRegex)) as (ch & Hc).
    rewrite Hc. apply processBoldAndCitations_source in Hc.
    eexists _, _. split; [reflexivity|]. cbn beta iota. rewrite Hc.
    now apply plus_lead. }
  destruct (matches (trim line) numberedRegex) eqn:H5.
  { destruct (processBoldAndCitations_total
                (replace_empty (trim line) numberedPrefixRegex)) as (ch & Hc).
    rewrite Hc. apply processBoldAndCitations_source in Hc.
    destruct (numbered_lead _ H5) as (number & ws & Hn & Hne & Hws & Hs & Ht & Hl).
    rewrite Hl. eexists _, _. split; [reflexivity|]. cbn beta iota. rewrite Hc.
    exists ws. auto. }
  destruct (processBoldAndCitations_total (trim line)) as (ch & Hc).
  rewrite Hc. apply processBoldAndCitations_source in Hc.
  destruct (matches (trim line) headerRegex);
    eexists _, _; (split; [reflexivity|]); exact Hc.
Qed.


(** * What a bold span may hold *)

Lemma star_lazy_min {A : Type} p (k : str -> option A) : forall s w r,
  star_lazy p k s = Some (w, r) ->
  exists s',
    s = w ++ s' /\
    forall w1 w2, w = w1 ++ w2 -> w2 <> [] -> k (w2 ++ s') = None.
Proof.
  induction s as [|c s IH]; intros w r; simpl.
  - destruct (skip k []) as [[w' r']|] eqn:E; [|discriminate].
    intros H; inversion H; subst. apply skip_inv in E as [-> _].
    exists []. split; [reflexivity|].
    intros w1 w2 E Hne. symmetry in E. apply app_eq_nil in E as [_ E]. congruence.
  - destruct (skip k (c :: s)) as [[w' r']|] eqn:E.
    + intros H; inversion H; subst. apply skip_inv in E as [-> _].
      exists (c :: s). split; [reflexivity|].
      intros w1 w2 E Hne. symmetry in E. apply app_eq_nil in E as [_ E]. congruence.
    + destruct (p c); [|discriminate].
      destruct (star_lazy p k s) as [[w' r']|] eqn:E'; [|discriminate].
      intros H; inversion H; subst.
      destruct (IH _ _ eq_refl) as (s' & -> & Hmin).
      exists s'. split; [reflexivity|].
      intros w1 w2 Ew Hne. destruct w1 as [|c1 w1]; cbn [app] in Ew.
      * subst w2. cbn [app]. unfold skip in E.
        destruct (k (c :: w' ++ s')); [discriminate|reflexivity].
      * inversion Ew; subst. now apply (Hmin w1 w2).
Qed.

Lemma no_pair_before_closing boldText rest :
  (forall w1 w2, boldText = w1 ++ w2 -> w2 <> [] ->
     match_here [lit_star; lit_star; Opt (Cls.lit Cls.colon)]
                (w2 ++ Cls.star :: Cls.star :: rest) = None) ->
  has_pair (boldText ++ [Cls.star]) = false.
Proof.
  induction boldText as [|c b IH]; intros Hmin; [reflexivity|].
  cbn [app]. rewrite has_pair_eq.
  rewrite IH by (intros w1 w2 -> Hne; now apply (Hmin (c :: w1) w2)).
  rewrite orb_false_r.
  assert (Hd : exists d t t',
             b ++ [Cls.star] = d :: t /\
             b ++ Cls.star :: Cls.star :: rest = d :: t').
  { destruct b as [|d b]; simpl; eauto. }
  destruct Hd as (d & t & t' & E1 & E2). rewrite E1.
  destruct (Cls.lit Cls.star c) eqn:Hc; [|reflexivity].
  destruct (Cls.lit Cls.star d) eqn:Hd; [|reflexivity].
  exfalso. specialize (Hmin [] (c :: b) eq_refl).
  cbn [app] in Hmin. rewrite E2 in Hmin.
  apply lit_true in Hc, Hd. subst c d.
  now apply (header_tail_some t'), Hmin.
Qed.

Lemma match_here_lazy_min p re s ps :
  match_here (LazyStar p :: re) s = Some ps ->
  exists w ps' s',
    ps = w :: ps' /\ s = w ++ s' /\ match_here re s' = Some ps' /\
    forall w1 w2, w = w1 ++ w2 -> w2 <> [] -> match_here re (w2 ++ s') = None.
Proof.
  simpl. unfold cons_piece.
  destruct (star_lazy p (match_here re) s) as [[w r]|] eqn:E; [|discriminate].
  simpl. intros H; inversion H; subst.
  destruct (star_lazy_min _ _ _ _ _ E) as (s' & -> & Hmin).
  apply star_lazy_inv in E as (s'' & E & _ & Hk).
  apply app_inv_head in E. subst s''.
  exists w, r, s'. auto.
Qed.

Lemma bold_match_min s ps :
  match_here (atoms boldRegex) s = Some ps ->
  has_pair (nth 2 ps [] ++ [Cls.star]) = false.
Proof.
  intros H. unfold boldRegex in H. cbn [atoms] in H.
  apply match_here_cons in H as (w1 & ps1 & s1 & -> & -> & _ & H).
  apply match_here_cons in H as (w2 & ps2 & s2 & -> & -> & _ & H).
  apply match_here_lazy_min in H as (w & ps3 & s3 & -> & -> & Hk & Hmin).
  cbn [nth].
  apply match_here_cons in Hk as (w4 & ps4 & s4 & -> & -> & (c4 & -> & P4) & Hk).
  apply match_here_cons in Hk as (w5 & ps5 & s5 & -> & -> & (c5 & -> & P5) & Hk).
  apply lit_true in P4, P5. subst c4 c5.
  now apply (no_pair_before_closing w s5).
Qed.

Lemma bold_step_shortest text lastIndex m k :
  exec boldRegex text lastIndex = Some m ->
  shortest_span (Strong k (get m 1) (get m 2)).
Proof.
  intros H. apply exec_sound in H as (pre & ps & rest & _ & _ & Hm & ->);
    [|reflexivity].
  pose proof (bold_match_min _ _ Hm) as Hmin.
  apply bold_match_inv in Hm as (boldText & colon & rest' & -> & _ & Hd & Hc).
  simpl. auto.
Qed.

Lemma extracted_shortest text ps :
  Forall (extracted_from text) ps -> Forall shortest_span ps.
Proof.
  intros H. eapply Forall_impl; [|exact H].
  intros [s'|k b c|o k n]; simpl; tauto.
Qed.

Lemma push_children_shortest parts text keyOffset c :
  Forall shortest_span parts ->
  processCitations text keyOffset = Some c ->
  Forall shortest_span (push_children parts c).
Proof.
  intros Hp Hc. apply processCitations_spec in Hc as (_ & Hc).
  apply extracted_shortest in Hc.
  destruct c; simpl in *; apply Forall_app; auto.
Qed.

Lemma bold_loop_shortest : forall fuel text lastIndex parts r,
  bold_loop fuel text lastIndex parts lastIndex = Some r ->
  Forall shortest_span parts -> Forall shortest_span (fst r).
Proof.
  induction fuel as [|fuel IH]; intros text lastIndex parts r H Hk; [discriminate|].
  rewrite bold_loop_S in H.
  destruct (exec boldRegex text lastIndex) as [m|] eqn:E.
  - match type of H with
    | (match ?e with Some _ => _ | None => _ end) = _ =>
        destruct e as [parts1|] eqn:Eb; [|discriminate]
    end.
    assert (H1 : Forall shortest_span parts1).
    { destruct (Nat.ltb lastIndex (index m)).
      - cbv zeta in Eb. destruct (processCitations _ _) as [cp|] eqn:Ec;
          [|discriminate].
        inversion Eb; subst. now apply (push_children_shortest _ _ _ _ Hk Ec).
      - inversion Eb; subst. exact Hk. }
    cbv zeta in H. apply IH in H; [exact H|].
    apply Forall_app. split; [exact H1|].
    constructor; [|constructor]. now apply (bold_step_shortest text lastIndex).
  - inversion H; subst. exact Hk.
Qed.

(** Property X9.  What a bold span holds (source lines 113 to 135): in the parts the
    tokenizer returns for any content, the text of every [<strong>]
    holds no line terminator and no pair of stars and does not end in a
    star, so a span always ends at the first closing pair, and what
    comes with it is the colon or nothing. *)
Theorem strong_is_shortest_span :
  forall text,
    exists c,
      processBoldAndCitations text = Some c /\
      forall k boldText colon,
        In (Strong k boldText colon) (parts_of c) ->
        forallb Cls.dot boldText = true /\
        has_pair (boldText ++ [Cls.star]) = false /\
        (colon = [] \/ colon = [Cls.colon]).
Proof.
  intros text. destruct (processBoldAndCitations_total text) as (c & Hc).
  exists c. split; [exact Hc|].
  assert (Hall : Forall shortest_span (parts_of c)).
  { revert Hc. unfold processBoldAndCitations.
    destruct (bold_loop (S (length text)) text 0 [] 0)
      as [[parts lastIndex]|] eqn:E; [|discriminate].
    apply bold_loop_shortest in E; [|constructor]. cbn [fst] in E.
    match goal with
    | |- (match ?e with Some _ => _ | None => _ end) = _ -> _ =>
        destruct e as [parts'|] eqn:Er; [|discriminate]
    end.
    assert (Hk : Forall shortest_span parts').
    { destruct (Nat.ltb lastIndex (length text)).
      - cbv zeta in Er. destruct (processCitations _ _) as [cp|] eqn:Ec;
          [|discriminate].
        inversion Er; subst. now apply (push_children_shortest _ _ _ _ E Ec).
      - inversion Er; subst. exact E. }
    destruct (Nat.ltb 0 (length parts')); intros H; inversion H; subst; simpl; auto.
    constructor; [exact I|constructor]. }
  intros k boldText colon Hin. rewrite Forall_forall in Hall.
  exact (Hall _ Hin).
Qed.

(** * Instances *)

Lemma strong_is_shortest_span_witness :
  exists c,
    processBoldAndCitations (js "a **b**: c") = Some c /\
    (forallb Cls.dot (js "b") = true /\
     has_pair (js "b" ++ [Cls.star]) = false /\
     (js ":" = [] \/ js ":" = [Cls.colon])).
Proof.
  destruct (strong_is_shortest_span (js "a **b**: c")) as (c & Hc & H).
  exists c. split; [exact Hc|]. apply (H 1).
  vm_compute in Hc. inversion Hc; subst. simpl. auto.
Defined.

Lemma part_keys_distinct_witness :
  exists c,
    processBoldAndCitations (js "[1] **b** [2][3]") = Some c /\
    NoDup (keys (parts_of c)) /\
    keys (parts_of c)
    = [CitationKey 0 0; BoldKey 2; CitationKey 3 1; CitationKey 3 2].
Proof.
  destruct (part_keys_distinct (js "[1] **b** [2][3]")) as (c & Hc & Hn & _).
  exists c. split; [exact Hc|]. split; [exact Hn|].
  vm_compute in Hc. inversion Hc; subst. reflexivity.
Defined.


(** * The register within one parse *)

(** Claim C3: within one parse the register is carried from line to
    line.  Whatever the line and the value [c] of [nestedCounter], the
    callback pushes one element and leaves the counter at 0 after a
    BulletHeader, at [c + 1] after a NestedNumberedItem, whose number is
    that new value, and at [c] after any other block.  The parse of a
    text that is not empty starts the counter at 0 and hands each line
    the value the line before it left ([rendered]), so in the document
    of every text the nested items are numbered 1, 2, 3 and so on after
    each BulletHeader or the start, no other block counting or starting
    again ([numbered_from]).  Consequently a text rendered as
    BulletHeader, nested item, BulletHeader, nested item numbers both
    nested items 1, and two nested lines in a row are numbered 1 and
    2. *)
Theorem C3_numbering_register :
  (forall index line elements c,
      exists b c',
        parse_line index line (elements, c)
        = Some (elements ++ [{| key := index; block := b |}], c') /\
        match b with
        | BulletHeader _ => c' = 0
        | NestedNumberedItem number _ => c' = S c /\ number = S c
        | _ => c' = c
        end) /\
  (forall text,
      is_empty text = false ->
      exists elements c',
        parseMarkdown text = Some (Div elements) /\
        rendered 0 0 (split Cls.newline text) elements c') /\
  (forall text,
      exists r, parseMarkdown text = Some r /\ numbered_from 0 (document r)) /\
  (forall text k1 k2 k3 k4 h1 n1 i1 h2 n2 i2,
      parseMarkdown text
      = Some (Div [ {| key := k1; block := BulletHeader h1 |};
                    {| key := k2; block := NestedNumberedItem n1 i1 |};
                    {| key := k3; block := BulletHeader h2 |};
                    {| key := k4; block := NestedNumberedItem n2 i2 |} ]) ->
      n1 = 1 /\ n2 = 1) /\
  parseMarkdown (js "* * a" ++ Cls.newline :: js "* * b")
  = Some (Div [ {| key := 0;
                   block := NestedNumberedItem 1 (Parts [Str (js "a")]) |};
                {| key := 1;
                   block := NestedNumberedItem 2 (Parts [Str (js "b")]) |} ]).
Proof.
  split; [|split; [|split; [|split; [|reflexivity]]]].
  - intros index line elements c.
    destruct (parse_line_spec line c) as (b & c' & Hp & Hr & _).
    exists b, c'. split; [apply Hp|].
    destruct b; simpl in Hr; try exact Hr. destruct Hr as [-> ->]. auto.
  - intros text Hne. apply parseMarkdown_spec. intros ->. discriminate.
  - intros text. destruct text as [|c0 text].
    { exists (Falsy []). split; [reflexivity|exact I]. }
    destruct (parseMarkdown_spec (c0 :: text)) as (es & c' & Hp & Hr);
      [discriminate|].
    exists (Div es). split; [exact Hp|].
    simpl. now apply rendered_numbered in Hr.
  - intros text k1 k2 k3 k4 h1 n1 i1 h2 n2 i2 H.
    apply parseMarkdown_rendered in H as (c' & H).
    apply rendered_numbered in H. simpl in H.
    destruct H as (-> & -> & _). auto.
Qed.

Lemma C3_numbering_register_witness :
  exists h1 i1 h2 i2 n1 n2,
    parseMarkdown (js "* **Which**" ++ Cls.newline :: js "* * first" ++
                   Cls.newline :: js "* **Why**" ++ Cls.newline :: js "* * again")
    = Some (Div [ {| key := 0; block := BulletHeader h1 |};
                  {| key := 1; block := NestedNumberedItem n1 i1 |};
                  {| key := 2; block := BulletHeader h2 |};
                  {| key := 3; block := NestedNumberedItem n2 i2 |} ]) /\
    (n1 = 1 /\ n2 = 1).
Proof.
  do 6 eexists.
  refine ((fun Hp =>
             conj Hp (proj1 (proj2 (proj2 (proj2 C3_numbering_register)))
                        _ _ _ _ _ _ _ _ _ _ _ Hp)) _).
  vm_compute. reflexivity.
Defined.

(** * An opening pair that is never closed *)

Lemma leading_colon_prefix rest :
  rest = leading_colon rest ++ skipn (length (leading_colon rest)) rest.
Proof.
  destruct rest as [|c rest]; [reflexivity|]. simpl.
  destruct (Cls.lit Cls.colon c) eqn:Hc; [|reflexivity].
  apply lit_true in Hc. now subst.
Qed.

Lemma delimited_app boldText colon rest :
  delimited boldText (colon ++ rest) = delimited boldText colon ++ rest.
Proof.
  unfold delimited. cbn [app]. rewrite <- app_assoc. reflexivity.
Qed.

Lemma closes_eq s :
  closes s
  = match s with
    | a :: t =>
        match t with
        | b :: _ => Cls.lit Cls.star a && Cls.lit Cls.star b
        | [] => false
        end
        || Cls.dot a && closes t
    | [] => false
    end.
Proof. destruct s; reflexivity. Qed.

Lemma closes_after boldText t :
  forallb Cls.dot boldText = true ->
  closes (boldText ++ Cls.star :: Cls.star :: t) = true.
Proof.
  induction boldText as [|c boldText IH]; intros H; [reflexivity|].
  cbn [forallb] in H. apply andb_prop in H as [Hc H].
  cbn [app]. rewrite closes_eq, Hc, IH by exact H. apply orb_true_r.
Qed.

Lemma closes_has_pair s : closes s = true -> has_pair s = true.
Proof.
  induction s as [|a s IH]; [discriminate|].
  rewrite closes_eq, has_pair_eq. intros H.
  apply orb_prop in H as [H|H]; [now rewrite H|].
  apply andb_prop in H as [_ H]. rewrite IH by exact H. apply orb_true_r.
Qed.

(** Where no bold span begins the bold pattern does not match. *)
Lemma opens_needed s :
  opens s = false -> match_here (atoms boldRegex) s = None.
Proof.
  intros H.
  destruct (match_here (atoms boldRegex) s) as [ps|] eqn:E; [|reflexivity].
  apply bold_match_inv in E as (boldText & colon & rest & _ & -> & Hd & _).
  unfold opens in H. change (Cls.lit Cls.star Cls.star) with true in H.
  cbn [andb] in H. now rewrite closes_after in H by exact Hd.
Qed.

Lemma span_within_false plain s :
  span_within plain s = false ->
  forall w1 w2, plain = w1 ++ w2 -> w2 <> [] ->
  match_here (atoms boldRegex) (w2 ++ s) = None.
Proof.
  induction plain as [|c plain IH]; intros H w1 w2 E Hne.
  - destruct w1, w2; try discriminate. congruence.
  - cbn [span_within] in H. apply orb_false_elim in H as [Ho Hs].
    destruct w1 as [|c1 w1]; cbn [app] in E.
    + subst w2. apply opens_needed. exact Ho.
    + inversion E; subst. now apply (IH Hs w1 w2).
Qed.

(** Text that holds no pair of stars and does not end in a star is text
    in which no bold span begins, whatever span follows it. *)
Lemma no_pair_no_span plain s :
  has_pair (plain ++ [Cls.star]) = false ->
  span_within plain (Cls.star :: Cls.star :: s) = false.
Proof.
  induction plain as [|c plain IH]; intros H; [reflexivity|].
  cbn [app] in H. rewrite has_pair_eq in H.
  apply orb_false_elim in H as [H1 H2].
  cbn [span_within]. rewrite IH by exact H2. rewrite orb_false_r.
  destruct plain as [|c2 plain]; cbn [app] in *; unfold opens; now rewrite H1.
Qed.

(** A text with no closing pair after any pair of stars is a text in
    which no bold span begins. *)
Lemma unclosed_no_span tail :
  closed_pair tail = false -> span_within tail [] = false.
Proof.
  induction tail as [|a tail IH]; intros H; [reflexivity|].
  rewrite closed_pair_eq in H. apply orb_false_elim in H as [H1 H2].
  cbn [span_within]. rewrite IH by exact H2. rewrite orb_false_r, app_nil_r.
  destruct tail as [|b u]; [reflexivity|]. unfold opens.
  destruct (closes u) eqn:Hu; [|apply andb_false_r].
  apply closes_has_pair in Hu. rewrite Hu, andb_true_r in H1.
  now rewrite H1.
Qed.

Lemma search_skip re : forall plain s i ps,
  (forall w1 w2, plain = w1 ++ w2 -> w2 <> [] -> match_here re (w2 ++ s) = None) ->
  match_here re s = Some ps ->
  search re (plain ++ s) i = Some (i + length plain, ps).
Proof.
  induction plain as [|c plain IH]; intros s i ps Hf Hm.
  - cbn [app length]. rewrite Nat.add_0_r.
    destruct s; simpl; now rewrite Hm.
  - cbn [app search].
    pose proof (Hf [] (c :: plain) eq_refl) as H0. cbn [app] in H0.
    rewrite H0 by discriminate.
    rewrite (IH s (S i) ps); [f_equal; f_equal; simpl; lia| |exact Hm].
    intros w1 w2 -> Hne. now apply (Hf (c :: w1) w2).
Qed.

(** [exec] at the text before a complete span: the match is the span. *)
Lemma exec_span text lastIndex plain boldText rest :
  lastIndex <= length text ->
  skipn lastIndex text = plain ++ delimited boldText rest ->
  span_within plain (delimited boldText rest) = false ->
  forallb Cls.dot boldText = true ->
  has_pair (boldText ++ [Cls.star]) = false ->
  exec boldRegex text lastIndex
  = Some (mk_match boldRegex (lastIndex + length plain)
            [[Cls.star]; [Cls.star]; boldText; [Cls.star]; [Cls.star];
             leading_colon rest]).
Proof.
  intros Hle Hs Hp Hd Hb. unfold exec.
  apply Nat.leb_le in Hle. rewrite Hle.
  change (anchored boldRegex) with false. cbv iota. rewrite Hs.
  rewrite (search_skip (atoms boldRegex) plain (delimited boldText rest) lastIndex
             [[Cls.star]; [Cls.star]; boldText; [Cls.star]; [Cls.star];
              leading_colon rest]); [reflexivity| |now apply bold_match_first].
  exact (span_within_false _ _ Hp).
Qed.

Lemma exec_tail_none text lastIndex tail :
  skipn lastIndex text = tail ->
  span_within tail [] = false ->
  exec boldRegex text lastIndex = None.
Proof.
  intros Hs Hc. unfold exec.
  destruct (Nat.leb lastIndex (length text)); [|reflexivity].
  change (anchored boldRegex) with false. cbv iota. rewrite Hs.
  rewrite search_none; [reflexivity|].
  intros pre rest E. destruct rest as [|c rest]; [reflexivity|].
  rewrite <- (app_nil_r (c :: rest)).
  apply (span_within_false _ _ Hc pre (c :: rest) E). discriminate.
Qed.

Lemma push_children_parts_of parts c :
  push_children parts c = parts ++ parts_of c.
Proof. destruct c; reflexivity. Qed.

Lemma parts_of_source c :
  concat (map source_of (parts_of c)) = children_source c.
Proof. destruct c; simpl; [now rewrite app_nil_r|reflexivity]. Qed.

(** The loop over complete spans: it takes them one by one and stops
    where the tail begins. *)
Lemma bold_loop_spans tail s :
  spans_then tail s ->
  span_within tail [] = false ->
  forall text fuel lastIndex parts,
    lastIndex <= length text ->
    skipn lastIndex text = s ->
    length s < fuel ->
    exists done lastIndex',
      bold_loop fuel text lastIndex parts lastIndex
      = Some (parts ++ done, lastIndex') /\
      lastIndex' <= length text /\
      skipn lastIndex' text = tail /\
      concat (map source_of done) ++ tail = s.
Proof.
  intros Hsp Hc.
  induction Hsp as [|plain boldText rest Hp Hd Hb Hsp IH];
    intros text fuel lastIndex parts Hle Hs Hf;
    (destruct fuel as [|fuel]; [lia|]); rewrite bold_loop_S.
  - rewrite (exec_tail_none _ _ _ Hs Hc).
    exists [], lastIndex. rewrite app_nil_r. auto.
  - rewrite (exec_span _ _ _ _ _ Hle Hs Hp Hd Hb).
    set (colon := leading_colon rest) in *.
    set (rest' := skipn (length colon) rest) in *.
    assert (Hr : rest = colon ++ rest') by apply leading_colon_prefix.
    assert (Hs' : skipn lastIndex text
                  = plain ++ delimited boldText colon ++ rest').
    { rewrite Hs, Hr at 1. now rewrite delimited_app. }
    destruct (advance text plain (delimited boldText colon) rest' lastIndex Hle Hs')
      as (Hb' & Hsl & _ & Hsk).
    cbn [index mk_match].
    change (get (mk_match boldRegex (lastIndex + length plain)
                   [[Cls.star]; [Cls.star]; boldText; [Cls.star]; [Cls.star]; colon]) 1)
      with boldText.
    change (get (mk_match boldRegex (lastIndex + length plain)
                   [[Cls.star]; [Cls.star]; boldText; [Cls.star]; [Cls.star]; colon]) 2)
      with colon.
    assert (H0 : get (mk_match boldRegex (lastIndex + length plain)
                        [[Cls.star]; [Cls.star]; boldText; [Cls.star]; [Cls.star];
                         colon]) 0
                 = delimited boldText colon).
    { unfold delimited. simpl. now rewrite app_nil_r. }
    assert (Hbefore : exists t,
               (if Nat.ltb lastIndex (lastIndex + length plain) then
                  let beforeText := slice lastIndex (lastIndex + length plain) text in
                  citationParts <- processCitations beforeText (length parts) ;;
                  Some (push_children parts citationParts)
                else Some parts) = Some (parts ++ t) /\
               concat (map source_of t) = plain).
    { destruct (Nat.ltb_spec lastIndex (lastIndex + length plain)) as [Hlt|Hge].
      - cbv zeta. rewrite Hsl.
        destruct (processCitations_total plain (length parts)) as (cp & Hcp).
        rewrite Hcp. exists (parts_of cp).
        rewrite push_children_parts_of. split; [reflexivity|].
        rewrite parts_of_source.
        now apply processCitations_spec in Hcp as (Hcp & _).
      - exists []. rewrite app_nil_r. split; [reflexivity|].
        destruct plain; [reflexivity|simpl in Hge; lia]. }
    destruct Hbefore as (t & Hbef & Ht).
    destruct (IH text fuel
                (lastIndex + length plain + length (delimited boldText colon))
                ((parts ++ t) ++ [Strong (length (parts ++ t)) boldText colon]))
      as (done & lastIndex' & Hrun & Hle' & Hsk' & Hsrc).
    + exact Hb'.
    + exact Hsk.
    + rewrite <- Hs in Hf. rewrite Hs' in Hf.
      rewrite !length_app in Hf. unfold delimited in Hf. simpl in Hf. lia.
    + exists (t ++ [Strong (length (parts ++ t)) boldText colon] ++ done), lastIndex'.
      cbv zeta in Hbef. rewrite Hbef. cbv beta iota zeta.
      match goal with
      | |- context [get ?m 0] =>
          replace (get m 0) with (delimited boldText colon)
            by (unfold delimited; simpl; now rewrite app_nil_r)
      end.
      rewrite Hrun.
      rewrite <- !app_assoc. split; [reflexivity|].
      split; [exact Hle'|]. split; [exact Hsk'|].
      rewrite !map_app, !concat_app, Ht. cbn [map concat source_of].
      rewrite app_nil_r, <- !app_assoc, Hsrc.
      fold (delimited boldText colon). now rewrite <- delimited_app, <- Hr.
Qed.

Lemma processBoldAndCitations_shortest text c :
  processBoldAndCitations text = Some c -> Forall shortest_span (parts_of c).
Proof.
  unfold processBoldAndCitations.
  destruct (bold_loop (S (length text)) text 0 [] 0)
    as [[parts lastIndex]|] eqn:E; [|discriminate].
  apply bold_loop_shortest in E; [|constructor]. cbn [fst] in E.
  match goal with
  | |- (match ?e with Some _ => _ | None => _ end) = _ -> _ =>
      destruct e as [parts'|] eqn:Er; [|discriminate]
  end.
  assert (Hk : Forall shortest_span parts').
  { destruct (Nat.ltb lastIndex (length text)).
    - cbv zeta in Er. destruct (processCitations _ _) as [cp|] eqn:Ec;
        [|discriminate].
      inversion Er; subst. now apply (push_children_shortest _ _ _ _ E Ec).
    - inversion Er; subst. exact E. }
  destruct (Nat.ltb 0 (length parts')); intros H; inversion H; subst; simpl; auto.
  constructor; [exact I|constructor].
Qed.

Lemma first_span s :
  span_within s [] = false \/
  exists plain s',
    s = plain ++ s' /\ opens s' = true /\ span_within plain s' = false.
Proof.
  induction s as [|c p IH]; [now left|].
  cbn [span_within]. rewrite app_nil_r.
  destruct (opens (c :: p)) eqn:Ho.
  - right. exists [], (c :: p). auto.
  - destruct IH as [IH|(plain & s' & -> & Hs & Hw)]; [left; now rewrite IH|].
    right. exists (c :: plain), s'. split; [reflexivity|]. split; [exact Hs|].
    cbn [span_within]. now rewrite Ho, Hw.
Qed.

Lemma closes_inv u :
  closes u = true ->
  exists boldText rest,
    u = boldText ++ Cls.star :: Cls.star :: rest /\
    forallb Cls.dot boldText = true /\
    has_pair (boldText ++ [Cls.star]) = false.
Proof.
  induction u as [|a t IH]; [discriminate|].
  rewrite closes_eq.
  destruct (match t with
            | b :: _ => Cls.lit Cls.star a && Cls.lit Cls.star b
            | [] => false
            end) eqn:Hf.
  - intros _. destruct t as [|b t]; [discriminate|].
    apply andb_prop in Hf as [Ha Hb]. apply lit_true in Ha, Hb. subst.
    exists [], t. auto.
  - cbn [orb]. intros H. apply andb_prop in H as [Hd H].
    destruct (IH H) as (boldText & rest & -> & Hdot & Hp).
    exists (a :: boldText), rest. split; [reflexivity|].
    split; [cbn [forallb]; now rewrite Hd, Hdot|].
    cbn [app]. rewrite has_pair_eq, Hp, orb_false_r.
    destruct boldText; exact Hf.
Qed.

Lemma opens_inv s :
  opens s = true ->
  exists boldText rest,
    s = delimited boldText rest /\
    forallb Cls.dot boldText = true /\
    has_pair (boldText ++ [Cls.star]) = false.
Proof.
  destruct s as [|a [|b u]]; try discriminate. unfold opens. intros H.
  apply andb_prop in H as [H Hu]. apply andb_prop in H as [Ha Hb].
  apply lit_true in Ha, Hb. subst.
  destruct (closes_inv u Hu) as (boldText & rest & -> & Hd & Hp).
  exists boldText, rest. auto.
Qed.

(** Every text is complete bold spans and then a tail in which no bold
    span begins. *)
Lemma spans_then_total : forall n text,
  length text <= n ->
  exists tail, spans_then tail text /\ span_within tail [] = false.
Proof.
  induction n as [|n IH]; intros text Hn.
  - destruct text; [|simpl in Hn; lia]. exists []. split; [constructor|reflexivity].
  - destruct (first_span text) as [Hw|(plain & s' & -> & Ho & Hw)].
    + exists text. split; [constructor|exact Hw].
    + destruct (opens_inv s' Ho) as (boldText & rest & -> & Hd & Hp).
      destruct (IH (skipn (length (leading_colon rest)) rest)) as (tail & Hs & Ht).
      * rewrite length_app in Hn. unfold delimited in Hn. cbn [length] in Hn.
        rewrite length_app in Hn. cbn [length] in Hn.
        rewrite length_skipn. lia.
      * exists tail. split; [|exact Ht]. now apply spans_more.
Qed.

(** Claim C4: the tokenizer returns for every content string; the parts
    it returns spell the string out again, character for character, and
    every [<strong>] among them ends at the first closing pair, so that
    no later pair of stars is ever taken for its closing one.  Every
    string is zero or more complete bold spans and then a tail in which
    no bold span begins; when that tail holds a pair of stars, as in
    [**a** and **b], the parts for the tail hold no [<strong>]: each is
    a string or the badge of a number, so the unmatched delimiter and
    what follows it are ordinary text.  In particular, when the whole
    string holds a pair of stars and no second one after it no
    [<strong>] is built at all, and the content [Unclosed **bold] comes
    back as the one string it is. *)
Theorem C4_unclosed_bold_is_text :
  (forall text,
      exists c,
        processBoldAndCitations text = Some c /\
        children_source c = text /\
        forall k boldText colon,
          In (Strong k boldText colon) (parts_of c) ->
          forallb Cls.dot boldText = true /\
          has_pair (boldText ++ [Cls.star]) = false /\
          (colon = [] \/ colon = [Cls.colon])) /\
  (forall text,
      exists tail, spans_then tail text /\ span_within tail [] = false) /\
  (forall text tail,
      spans_then tail text ->
      has_pair tail = true ->
      span_within tail [] = false ->
      exists done rest,
        processBoldAndCitations text = Some (Parts (done ++ rest)) /\
        concat (map source_of done) ++ tail = text /\
        concat (map source_of rest) = tail /\
        forall p, In p rest ->
          (exists s, p = Str s) \/
          (exists offset k number, p = Badge offset k number /\ is_number number)) /\
  (forall text,
      has_pair text = true ->
      closed_pair text = false ->
      exists parts,
        processBoldAndCitations text = Some (Parts parts) /\
        concat (map source_of parts) = text /\
        forall p, In p parts ->
          (exists s, p = Str s) \/
          (exists offset k number, p = Badge offset k number /\ is_number number)) /\
  processBoldAndCitations (js "Unclosed **bold")
  = Some (Parts [Str (js "Unclosed **bold")]) /\
  spans (Parts [Str (js "Unclosed **bold")]) = [Text (js "Unclosed **bold")] /\
  processBoldAndCitations (js "**a** and **b")
  = Some (Parts [Strong 0 (js "a") []; Str (js " and **b")]).
Proof.
  assert (Htail : forall tail keyOffset cp,
             processCitations tail keyOffset = Some cp ->
             concat (map source_of (parts_of cp)) = tail /\
             forall p, In p (parts_of cp) ->
               (exists s, p = Str s) \/
               (exists offset k number,
                   p = Badge offset k number /\ is_number number)).
  { intros tail keyOffset cp Hcp.
    destruct (processCitations_spec _ _ _ Hcp) as (Hsrc & Hex).
    split; [now rewrite parts_of_source|].
    intros p Hin. rewrite Forall_forall in Hex. specialize (Hex p Hin).
    destruct p; simpl in Hex; [eauto|contradiction|].
    right. destruct Hex as (Hn & _). eauto 6. }
  split; [|split; [|split; [|split; [|split; [reflexivity|split; reflexivity]]]]].
  - intros text. destruct (processBoldAndCitations_total text) as (c & Hc).
    exists c. split; [exact Hc|].
    split; [now apply processBoldAndCitations_source|].
    pose proof (processBoldAndCitations_shortest _ _ Hc) as Hall.
    intros k boldText colon Hin. rewrite Forall_forall in Hall.
    exact (Hall _ Hin).
  - intros text. now apply (spans_then_total (length text)).
  - intros text tail Hsp Hp Hc.
    destruct (bold_loop_spans tail text Hsp Hc text (S (length text)) 0 [])
      as (done & li & Hrun & Hle & Hsk & Hsrc); [lia|reflexivity|lia|].
    cbn [app] in Hrun.
    destruct (processCitations_total tail (length done)) as (cp & Hcp).
    destruct (Htail _ _ _ Hcp) as (Hts & Htp).
    exists done, (parts_of cp).
    split; [|split; [exact Hsrc|split; [exact Hts|exact Htp]]].
    assert (Hlt : Nat.ltb li (length text) = true).
    { apply Nat.ltb_lt. destruct (Nat.lt_ge_cases li (length text)) as [|Hge];
        [assumption|].
      rewrite skipn_all2 in Hsk by exact Hge. subst tail. discriminate Hp. }
    unfold processBoldAndCitations. rewrite Hrun, Hlt. cbv zeta.
    unfold slice_from. rewrite Hsk, Hcp, push_children_parts_of.
    pose proof (processCitations_parts_nonempty _ _ _ Hcp) as Hne.
    destruct (done ++ parts_of cp) eqn:E; [|reflexivity].
    apply app_eq_nil in E as [_ E]. congruence.
  - intros text Hp Hc.
    destruct (processCitations_total text 0) as (cp & Hcp).
    pose proof (processCitations_parts_nonempty _ _ _ Hcp) as Hne.
    destruct (Htail _ _ _ Hcp) as (Hts & Htp).
    exists (parts_of cp).
    split; [|split; [exact Hts|exact Htp]].
    unfold processBoldAndCitations. rewrite bold_loop_S.
    rewrite exec_none; [|reflexivity|now apply unclosed_no_match].
    apply has_pair_nonempty in Hp.
    destruct text as [|c0 text]; [congruence|].
    cbn [length Nat.ltb Nat.leb]. cbv zeta.
    unfold slice_from. cbn [skipn length]. rewrite Hcp.
    rewrite push_children_parts_of. cbn [app].
    destruct (parts_of cp); [congruence|reflexivity].
Qed.

Lemma C4_unclosed_bold_is_text_witness :
  exists done rest,
    processBoldAndCitations (js "**a**: see [1] and **b [2]")
    = Some (Parts (done ++ rest)) /\
    concat (map source_of done) ++ js " see [1] and **b [2]"
    = js "**a**: see [1] and **b [2]" /\
    concat (map source_of rest) = js " see [1] and **b [2]".
Proof.
  destruct (proj1 (proj2 (proj2 C4_unclosed_bold_is_text))
              (js "**a**: see [1] and **b [2]") (js " see [1] and **b [2]"))
    as (done & rest & Hp & Hd & Hr & _).
  - apply (spans_more _ [] (js "a") (js ": see [1] and **b [2]"));
      try reflexivity.
    apply spans_done.
  - reflexivity.
  - reflexivity.
  - exists done, rest. split; [exact Hp|]. split; [exact Hd|exact Hr].
Defined.
